(** * mcp-memory-cache: the cache engine of [src/CacheManager.ts]

    A shallow embedding of the [CacheManager] class and of the pieces of the
    JavaScript runtime it relies on ([JSON.stringify], [Map],
    [Array.prototype.sort], IEEE-754 numbers), followed by the properties of
    the engine: accounting, eviction, expiry, statistics and failures.

    Conventions of the embedding.
    - A method of the class is a function from the manager's state to a
      result and a new state; the state also carries the log of the events
      handed to [sendSseEvent].
    - [Date.now()] and [performance.now()] are inputs: every method takes
      the readings it performs, in the order in which it performs them.
    - Integer-valued quantities (timestamps, sizes, counters) are [Z]; this
      is exact for JavaScript numbers below 2^53.  The two derived
      statistics, [hitRate] and [avgAccessTime], and the readings of
      [performance.now()] are binary64 floating-point numbers. *)

From Stdlib Require Import ZArith List String Ascii Bool Lia.
From Stdlib Require Import SpecFloat DecimalString Permutation Sorted.
Import ListNotations.
Open Scope Z_scope.

Set Warnings "-register-all".

(* ================================================================== *)
(** * The JavaScript runtime *)
(* ================================================================== *)

(** ** Numbers: IEEE-754 binary64 *)

Module Num.

Definition prec : Z := 53.
Definition emax : Z := 1024.

Definition number : Type := spec_float.

Definition add : number -> number -> number := SFadd prec emax.
Definition sub : number -> number -> number := SFsub prec emax.
Definition mul : number -> number -> number := SFmul prec emax.
Definition div : number -> number -> number := SFdiv prec emax.

(** The number denoted by an integer (exact below 2^53). *)
Definition of_Z (z : Z) : number := binary_normalize prec emax z 0 false.

Definition zero : number := S754_zero false.
Definition Infinity : number := S754_infinity false.
Definition NaN : number := S754_nan.

(** [Number.isFinite]. *)
Definition isFinite (x : number) : bool :=
  match x with
  | S754_zero _ | S754_finite _ _ _ => true
  | S754_infinity _ | S754_nan => false
  end.

End Num.

Definition number : Type := Num.number.

(** ** Thrown errors and completions *)

(** A thrown error, identified by the name of its constructor. *)
Inductive JsError : Type :=
| Error (name : string).

Definition TypeError : JsError := Error "TypeError".

Inductive Completion (A : Type) : Type :=
| Normal (a : A)
| Throw (e : JsError).

Arguments Normal {A} a.
Arguments Throw {A} e.

(** ** Values *)

(** The values a caller can hand to the cache.  A [JNumber] is an
    integer-valued number in the safe range; a string is a sequence of
    code units below 256, one [ascii] each. *)
Inductive JsValue : Type :=
| JUndefined
| JNull
| JBoolean (b : bool)
| JNumber (n : Z)
| JString (s : string)
| JBigInt (n : Z)
| JArray (elements : list JsValue)
| JObject (properties : list (string * JsValue)).

(** Induction on values, with the hypothesis on every element of an
    array and on every property of an object. *)
Section JsValueInduction.

Variable P : JsValue -> Prop.
Hypothesis P_undefined : P JUndefined.
Hypothesis P_null : P JNull.
Hypothesis P_boolean : forall b, P (JBoolean b).
Hypothesis P_number : forall n, P (JNumber n).
Hypothesis P_string : forall s, P (JString s).
Hypothesis P_bigint : forall n, P (JBigInt n).
Hypothesis P_array : forall elements, Forall P elements -> P (JArray elements).
Hypothesis P_object :
  forall properties, Forall (fun kv => P (snd kv)) properties -> P (JObject properties).

Fixpoint JsValue_nested_ind (v : JsValue) : P v :=
  match v with
  | JUndefined => P_undefined
  | JNull => P_null
  | JBoolean b => P_boolean b
  | JNumber n => P_number n
  | JString s => P_string s
  | JBigInt n => P_bigint n
  | JArray elements =>
      P_array elements
        ((fix each (l : list JsValue) : Forall P l :=
            match l with
            | [] => Forall_nil P
            | x :: r => Forall_cons x (JsValue_nested_ind x) (each r)
            end) elements)
  | JObject properties =>
      P_object properties
        ((fix each (l : list (string * JsValue)) : Forall (fun kv => P (snd kv)) l :=
            match l with
            | [] => Forall_nil _
            | kv :: r => Forall_cons kv (JsValue_nested_ind (snd kv)) (each r)
            end) properties)
  end.

End JsValueInduction.

(** ** [JSON.stringify] *)

Module JSON.

Open Scope string_scope.

Definition dquote : string := String (ascii_of_nat 34) EmptyString.

Definition hexDigit (n : nat) : ascii :=
  nth n (list_ascii_of_string "0123456789abcdef") "0"%char.

(** One code unit of a quoted string (QuoteJSONString, step 2). *)
Definition QuoteJSONChar (c : ascii) : string :=
  let n := nat_of_ascii c in
  if (n =? 8)%nat then "\b"
  else if (n =? 9)%nat then "\t"
  else if (n =? 10)%nat then "\n"
  else if (n =? 12)%nat then "\f"
  else if (n =? 13)%nat then "\r"
  else if (n =? 34)%nat then "\" ++ dquote
  else if (n =? 92)%nat then "\\"
  else if (n <? 32)%nat then
    "\u00" ++ String (hexDigit (n / 16)) (String (hexDigit (n mod 16)) EmptyString)
  else String c EmptyString.

Fixpoint QuoteJSONChars (s : string) : string :=
  match s with
  | EmptyString => EmptyString
  | String c r => QuoteJSONChar c ++ QuoteJSONChars r
  end.

Definition QuoteJSONString (s : string) : string :=
  dquote ++ QuoteJSONChars s ++ dquote.

(** [Number::toString] on an integer of the safe range. *)
Definition NumberToString (n : Z) : string :=
  NilZero.string_of_int (Z.to_int n).

(** SerializeJSONProperty: [None] stands for [undefined]. *)
Fixpoint SerializeJSONProperty (v : JsValue) : Completion (option string) :=
  match v with
  | JUndefined => Normal None
  | JNull => Normal (Some "null")
  | JBoolean b => Normal (Some (if b then "true" else "false"))
  | JNumber n => Normal (Some (NumberToString n))
  | JString s => Normal (Some (QuoteJSONString s))
  | JBigInt _ => Throw TypeError
  | JArray elements =>
      (* SerializeJSONArray: an undefined element is written null *)
      let fix items (l : list JsValue) : Completion (list string) :=
        match l with
        | [] => Normal []
        | x :: r =>
            match SerializeJSONProperty x with
            | Throw e => Throw e
            | Normal o =>
                match items r with
                | Throw e => Throw e
                | Normal acc =>
                    Normal (match o with Some s => s | None => "null" end :: acc)
                end
            end
        end in
      match items elements with
      | Throw e => Throw e
      | Normal l => Normal (Some ("[" ++ String.concat "," l ++ "]"))
      end
  | JObject properties =>
      (* SerializeJSONObject: an undefined property is left out *)
      let fix members (l : list (string * JsValue)) : Completion (list string) :=
        match l with
        | [] => Normal []
        | (k, x) :: r =>
            match SerializeJSONProperty x with
            | Throw e => Throw e
            | Normal o =>
                match members r with
                | Throw e => Throw e
                | Normal acc =>
                    Normal (match o with
                            | Some s => (QuoteJSONString k ++ ":" ++ s) :: acc
                            | None => acc
                            end)
                end
            end
        end in
      match members properties with
      | Throw e => Throw e
      | Normal l => Normal (Some ("{" ++ String.concat "," l ++ "}"))
      end
  end.

(** [JSON.stringify(value)]: a string, [undefined], or a thrown error. *)
Definition stringify (v : JsValue) : Completion (option string) :=
  SerializeJSONProperty v.

End JSON.

(** ** [Map]: keys in insertion order *)

Module Map.

Section WithValues.

Context {V : Type}.

Definition t : Type := list (string * V).

Definition empty : t := [].

Fixpoint get (k : string) (m : t) : option V :=
  match m with
  | [] => None
  | (k', v) :: r => if String.eqb k k' then Some v else get k r
  end.

(** An existing key keeps its position; a new key goes last. *)
Fixpoint set (k : string) (v : V) (m : t) : t :=
  match m with
  | [] => [(k, v)]
  | (k', v') :: r =>
      if String.eqb k k' then (k, v) :: r else (k', v') :: set k v r
  end.

Fixpoint delete (k : string) (m : t) : t :=
  match m with
  | [] => []
  | (k', v') :: r =>
      if String.eqb k k' then delete k r else (k', v') :: delete k r
  end.

Definition size (m : t) : Z := Z.of_nat (List.length m).

Definition keys (m : t) : list string := map fst m.

(** [Array.from(m.entries())]. *)
Definition entries (m : t) : list (string * V) := m.

(** Each key occurs once. *)
Definition wf (m : t) : Prop := NoDup (keys m).

End WithValues.

Arguments t : clear implicits.

End Map.

(** ** [Array.prototype.sort] *)

(** The sort is stable (ECMAScript 2019), so for a consistent comparator
    its result is the one of a stable insertion sort: an element goes
    before the first one it does not compare greater than. *)
Section ArraySort.

Context {A : Type} (compareFn : A -> A -> Z).

Fixpoint sort_insert (x : A) (l : list A) : list A :=
  match l with
  | [] => [x]
  | y :: r => if compareFn x y <=? 0 then x :: y :: r else y :: sort_insert x r
  end.

Fixpoint Array_sort (l : list A) : list A :=
  match l with
  | [] => []
  | x :: r => sort_insert x (Array_sort r)
  end.

End ArraySort.

(** [a ?? b]. *)
Definition nullish {A : Type} (a : option A) (b : A) : A :=
  match a with
  | Some x => x
  | None => b
  end.

(* ================================================================== *)
(** * The data model ([src/types.ts]) *)
(* ================================================================== *)

Record CacheEntry : Type := {
  value : JsValue;
  created : Z;
  lastAccessed : Z;
  ttl : option Z;
  size : Z
}.

Record CacheStats : Type := {
  totalEntries : Z;
  memoryUsage : Z;
  hits : Z;
  misses : Z;
  hitRate : number;
  avgAccessTime : number
}.

(** [CacheConfig]: every field is optional. *)
Module CacheConfig.

Record t : Type := {
  maxEntries : option Z;
  maxMemory : option Z;
  defaultTTL : option Z;
  checkInterval : option Z;
  statsInterval : option Z
}.

(** The default argument [{}] of the constructor. *)
Definition empty : t :=
  {| maxEntries := None; maxMemory := None; defaultTTL := None;
     checkInterval := None; statsInterval := None |}.

End CacheConfig.

(** [Required<CacheConfig>]. *)
Record RequiredCacheConfig : Type := {
  maxEntries : Z;
  maxMemory : Z;
  defaultTTL : Z;
  checkInterval : Z;
  statsInterval : Z
}.

(** An event handed to [sendSseEvent]. *)
Inductive SseEvent : Type :=
| cache_set (key : string) (value : JsValue)
| cache_delete (key : string).

(** The readings of the clocks one call performs, in program order: the
    [performance.now()] on entry, up to two [Date.now()], and the
    [performance.now()] before the latency is recorded.  A reading the
    call does not reach is ignored. *)
Record Clock : Type := {
  perfStart : number;
  dateNow1 : Z;
  dateNow2 : Z;
  perfEnd : number
}.

(* ================================================================== *)
(** * The cache manager ([src/CacheManager.ts]) *)
(* ================================================================== *)

(** The private fields of the class, and the events sent so far. *)
Record CacheManager : Type := {
  cache : Map.t CacheEntry;
  stats : CacheStats;
  config : RequiredCacheConfig;
  sse : list SseEvent
}.

Definition with_cache (m : Map.t CacheEntry) (c : CacheManager) : CacheManager :=
  {| cache := m; stats := stats c; config := config c; sse := sse c |}.

Definition with_stats (s : CacheStats) (c : CacheManager) : CacheManager :=
  {| cache := cache c; stats := s; config := config c; sse := sse c |}.

Definition sendSseEvent (e : SseEvent) (c : CacheManager) : CacheManager :=
  {| cache := cache c; stats := stats c; config := config c; sse := sse c ++ [e] |}.

Definition zeroStats : CacheStats :=
  {| totalEntries := 0; memoryUsage := 0; hits := 0; misses := 0;
     hitRate := Num.zero; avgAccessTime := Num.zero |}.

Definition constructor (cfg : CacheConfig.t) : CacheManager :=
  {| cache := Map.empty;
     stats := zeroStats;
     config :=
       {| maxEntries := nullish (CacheConfig.maxEntries cfg) 1000;
          maxMemory := nullish (CacheConfig.maxMemory cfg) (100 * 1024 * 1024);
          defaultTTL := nullish (CacheConfig.defaultTTL cfg) 3600;
          checkInterval := nullish (CacheConfig.checkInterval cfg) (60 * 1000);
          statsInterval := nullish (CacheConfig.statsInterval cfg) (30 * 1000) |};
     sse := [] |}.

(** [calculateSize]: reading [length] of [undefined] throws a TypeError. *)
Definition calculateSize (v : JsValue) : Completion Z :=
  match JSON.stringify v with
  | Throw e => Throw e
  | Normal None => Throw TypeError
  | Normal (Some str) => Normal (Z.of_nat (String.length str) * 2)
  end.

Definition updateHitRate (c : CacheManager) : CacheManager :=
  let s := stats c in
  let total := hits s + misses s in
  with_stats
    {| totalEntries := totalEntries s; memoryUsage := memoryUsage s;
       hits := hits s; misses := misses s;
       hitRate :=
         if total >? 0
         then Num.mul (Num.div (Num.of_Z (hits s)) (Num.of_Z total)) (Num.of_Z 100)
         else Num.zero;
       avgAccessTime := avgAccessTime s |} c.

Definition updateAccessTime (duration : number) (c : CacheManager) : CacheManager :=
  let s := stats c in
  let total := hits s + misses s in
  with_stats
    {| totalEntries := totalEntries s; memoryUsage := memoryUsage s;
       hits := hits s; misses := misses s; hitRate := hitRate s;
       avgAccessTime :=
         Num.div
           (Num.add (Num.mul (avgAccessTime s) (Num.of_Z (total - 1))) duration)
           (Num.of_Z total) |} c.

Definition resetStats (c : CacheManager) : CacheManager :=
  with_stats zeroStats c.

Definition updateStats (c : CacheManager) : CacheManager :=
  updateHitRate c.

(** [this.stats.misses++] and [this.stats.hits++]. *)
Definition incrMisses (c : CacheManager) : CacheManager :=
  let s := stats c in
  with_stats
    {| totalEntries := totalEntries s; memoryUsage := memoryUsage s;
       hits := hits s; misses := misses s + 1;
       hitRate := hitRate s; avgAccessTime := avgAccessTime s |} c.

Definition incrHits (c : CacheManager) : CacheManager :=
  let s := stats c in
  with_stats
    {| totalEntries := totalEntries s; memoryUsage := memoryUsage s;
       hits := hits s + 1; misses := misses s;
       hitRate := hitRate s; avgAccessTime := avgAccessTime s |} c.

Definition delete (key : string) (c : CacheManager) : bool * CacheManager :=
  match Map.get key (cache c) with
  | Some entry =>
      let s := stats c in
      let cache' := Map.delete key (cache c) in
      (true,
       sendSseEvent (cache_delete key)
         {| cache := cache';
            stats :=
              {| totalEntries := Map.size cache';
                 memoryUsage := memoryUsage s - size entry;
                 hits := hits s; misses := misses s;
                 hitRate := hitRate s; avgAccessTime := avgAccessTime s |};
            config := config c;
            sse := sse c |})
  | None => (false, c)
  end.

Definition clear (c : CacheManager) : CacheManager :=
  resetStats (with_cache Map.empty c).

Definition getStats (c : CacheManager) : CacheStats :=
  stats c.

Definition isExpired (now : Z) (entry : CacheEntry) (c : CacheManager) : bool :=
  now >? created entry + nullish (ttl entry) (defaultTTL (config c)) * 1000.

(** The comparator of [enforceMemoryLimit]. *)
Definition byLastAccessed (a b : string * CacheEntry) : Z :=
  lastAccessed (snd a) - lastAccessed (snd b).

(** The [while] loop of [enforceMemoryLimit]: [entries.shift()] takes the
    head of the sorted array. *)
Fixpoint enforceMemoryLimit_loop (requiredSize : Z)
    (entries : list (string * CacheEntry)) (c : CacheManager) : CacheManager :=
  match entries with
  | [] => c
  | (key, _) :: rest =>
      if memoryUsage (stats c) + requiredSize >? maxMemory (config c)
      then enforceMemoryLimit_loop requiredSize rest (snd (delete key c))
      else c
  end.

Definition enforceMemoryLimit (requiredSize : Z) (c : CacheManager) : CacheManager :=
  let entries := Array_sort byLastAccessed (Map.entries (cache c)) in
  enforceMemoryLimit_loop requiredSize entries c.

Definition set (key : string) (v : JsValue) (ttl_arg : option Z) (clk : Clock)
    (c : CacheManager) : Completion unit * CacheManager :=
  match calculateSize v with
  | Throw e => (Throw e, c)
  | Normal sz =>
      let c1 :=
        if memoryUsage (stats c) + sz >? maxMemory (config c)
        then enforceMemoryLimit sz c
        else c in
      let entry :=
        {| value := v;
           created := dateNow1 clk;
           lastAccessed := dateNow2 clk;
           ttl := Some (nullish ttl_arg (defaultTTL (config c1)));
           size := sz |} in
      let cache' := Map.set key entry (cache c1) in
      let s := stats c1 in
      let c2 :=
        {| cache := cache';
           stats :=
             {| totalEntries := Map.size cache';
                memoryUsage := memoryUsage s + sz;
                hits := hits s; misses := misses s;
                hitRate := hitRate s; avgAccessTime := avgAccessTime s |};
           config := config c1;
           sse := sse c1 |} in
      let c3 := updateAccessTime (Num.sub (perfEnd clk) (perfStart clk)) c2 in
      (Normal tt, sendSseEvent (cache_set key v) c3)
  end.

Definition get (key : string) (clk : Clock) (c : CacheManager)
    : JsValue * CacheManager :=
  match Map.get key (cache c) with
  | None => (JUndefined, updateHitRate (incrMisses c))
  | Some entry =>
      if isExpired (dateNow1 clk) entry c
      then (JUndefined, updateHitRate (incrMisses (snd (delete key c))))
      else
        let entry' :=
          {| value := value entry; created := created entry;
             lastAccessed := dateNow2 clk;
             ttl := ttl entry; size := size entry |} in
        let c1 := with_cache (Map.set key entry' (cache c)) c in
        let c2 := updateHitRate (incrHits c1) in
        let c3 := updateAccessTime (Num.sub (perfEnd clk) (perfStart clk)) c2 in
        (value entry, c3)
  end.

(** [destroy]: the timers are outside the model; the state is cleared. *)
Definition destroy (c : CacheManager) : CacheManager :=
  clear c.

(* ================================================================== *)
(** * Vocabulary of the properties *)
(* ================================================================== *)

(** The sum of [size] over the live entries. *)
Definition liveSize (m : Map.t CacheEntry) : Z :=
  fold_right (fun p acc => size (snd p) + acc) 0 m.

(** The statistics agree with the map: no drift in [memoryUsage], and
    [totalEntries] counts the live entries. *)
Definition accounted (c : CacheManager) : Prop :=
  memoryUsage (stats c) = liveSize (cache c) /\
  totalEntries (stats c) = Z.of_nat (List.length (cache c)).

(** The running mean as the specification words it:
    [(avg_old * (n - 1) + d) / n]. *)
Definition runningMean (avg_old : number) (n : Z) (d : number) : number :=
  Num.div (Num.add (Num.mul avg_old (Num.of_Z (n - 1))) d) (Num.of_Z n).

(** The duration a call measures. *)
Definition duration (clk : Clock) : number :=
  Num.sub (perfEnd clk) (perfStart clk).

(** A miss: the key is absent, or its entry is expired at the reading of
    [Date.now()] that [get] hands to [isExpired]. *)
Definition isMiss (key : string) (clk : Clock) (c : CacheManager) : bool :=
  match Map.get key (cache c) with
  | None => true
  | Some entry => isExpired (dateNow1 clk) entry c
  end.

(** The state in which [set] inserts an entry of [requiredSize] bytes:
    [enforceMemoryLimit] has run if the projected usage was above the
    ceiling. *)
Definition makeRoom (requiredSize : Z) (c : CacheManager) : CacheManager :=
  if memoryUsage (stats c) + requiredSize >? maxMemory (config c)
  then enforceMemoryLimit requiredSize c
  else c.

(** The entry [set] builds. *)
Definition newEntry (v : JsValue) (ttl_arg : option Z) (clk : Clock)
    (c : CacheManager) (sz : Z) : CacheEntry :=
  {| value := v;
     created := dateNow1 clk;
     lastAccessed := dateNow2 clk;
     ttl := Some (nullish ttl_arg (defaultTTL (config c)));
     size := sz |}.

(** Sequences of [put] and [remove]. *)
Inductive Op : Type :=
| Put (key : string) (v : JsValue) (ttl_arg : option Z) (clk : Clock)
| Remove (key : string).

Definition step (c : CacheManager) (o : Op) : CacheManager :=
  match o with
  | Put key v ttl_arg clk => snd (set key v ttl_arg clk c)
  | Remove key => snd (delete key c)
  end.

Definition run (ops : list Op) (c : CacheManager) : CacheManager :=
  fold_left step ops c.

(** No [Put] of the sequence overwrites a key that is in the map when it
    runs. *)
Fixpoint neverOverwrites (ops : list Op) (c : CacheManager) : Prop :=
  match ops with
  | [] => True
  | o :: rest =>
      match o with
      | Put key _ _ _ => Map.get key (cache c) = None
      | Remove _ => True
      end /\ neverOverwrites rest (step c o)
  end.

(** Deleting keys one after the other. *)
Definition deleteAll (keys : list string) (c : CacheManager) : CacheManager :=
  fold_left (fun c key => snd (delete key c)) keys c.

(** [hitRate] as a function of the counters: [hits / (hits + misses) * 100],
    and [0] before the first request. *)
Definition hitRateOf (h m : Z) : number :=
  if h + m >? 0
  then Num.mul (Num.div (Num.of_Z h) (Num.of_Z (h + m))) (Num.of_Z 100)
  else Num.zero.

(** The call that led from [c] to [c'] recorded its latency: the new
    [avgAccessTime] is the running mean of the old one and of the measured
    duration, with [n] read from the counters of [c']. *)
Definition latencyRecorded (clk : Clock) (c c' : CacheManager) : Prop :=
  avgAccessTime (stats c') =
  runningMean (avgAccessTime (stats c))
    (hits (stats c') + misses (stats c')) (duration clk).

(** [JSON.stringify] returns a string for the value. *)
Definition serializable (v : JsValue) : bool :=
  match JSON.stringify v with
  | Normal (Some _) => true
  | _ => false
  end.

(** The order in which [enforceMemoryLimit] visits the live entries:
    ascending in [lastAccessed], entries with equal [lastAccessed] in the
    order of the map. *)
Definition olderOrEqual (a b : string * CacheEntry) : Prop :=
  lastAccessed (snd a) <= lastAccessed (snd b).

Definition accessedAt (t : Z) (p : string * CacheEntry) : bool :=
  lastAccessed (snd p) =? t.

Definition lruOrder (m : Map.t CacheEntry) (order : list (string * CacheEntry)) : Prop :=
  Permutation order m /\
  StronglySorted olderOrEqual order /\
  forall t, filter (accessedAt t) order = filter (accessedAt t) m.

(** [c'] is [c] after the first [n] entries of [order] were removed by
    [delete], one after the other, each call finding its key and each made
    because the projected usage was still above the ceiling; [n] is where
    this stops: the projected usage fits, or no entry remains. *)
Definition evictsPrefix (requiredSize : Z) (order : list (string * CacheEntry))
    (c c' : CacheManager) : Prop :=
  exists n : nat,
    (n <= List.length order)%nat /\
    c' = deleteAll (firstn n (map fst order)) c /\
    (forall j key, (j < n)%nat -> nth_error (map fst order) j = Some key ->
       let cj := deleteAll (firstn j (map fst order)) c in
       memoryUsage (stats cj) + requiredSize > maxMemory (config c) /\
       fst (delete key cj) = true) /\
    (memoryUsage (stats c') + requiredSize <= maxMemory (config c) \/
     cache c' = []).

(** ** Three sentences of the specification, as they are worded *)

(** "If absent [or expired], increments misses, recomputes hitRate,
    records latency, returns absent." *)
Definition missAsSpecified (key : string) (clk : Clock) (c : CacheManager) : Prop :=
  isMiss key clk c = true ->
  let c' := snd (get key clk c) in
  fst (get key clk c) = JUndefined /\
  misses (stats c') = misses (stats c) + 1 /\
  hitRate (stats c') = hitRateOf (hits (stats c')) (misses (stats c')) /\
  latencyRecorded clk c c'.

(** "Every get, whether hit or miss, records its latency by the running
    mean." *)
Definition getRecordsLatency (key : string) (clk : Clock) (c : CacheManager) : Prop :=
  latencyRecorded clk c (snd (get key clk c)).

(** "A value that cannot be serialized must surface as a distinct
    SerializationError." *)
Definition unserializableAsSpecified (key : string) (v : JsValue)
    (ttl_arg : option Z) (clk : Clock) (c : CacheManager) : Prop :=
  serializable v = false ->
  fst (set key v ttl_arg clk c) = Throw (Error "SerializationError").

(** ** Sample inputs *)

Module Sample.

Open Scope string_scope.

(** A call at wall-clock time [now] that enters at 10 ms of the
    performance clock and takes [d] ms. *)
Definition timed (d now : Z) : Clock :=
  {| perfStart := Num.of_Z 10; dateNow1 := now; dateNow2 := now;
     perfEnd := Num.of_Z (10 + d) |}.

Definition at_time : Z -> Clock := timed 4.

(** A call too short for the performance clock to tell. *)
Definition instant : Z -> Clock := timed 0.

(** [new CacheManager({ maxMemory })]. *)
Definition withMaxMemory (m : Z) : CacheManager :=
  constructor
    {| CacheConfig.maxEntries := None; CacheConfig.maxMemory := Some m;
       CacheConfig.defaultTTL := None; CacheConfig.checkInterval := None;
       CacheConfig.statsInterval := None |}.

(** [new CacheManager()]. *)
Definition fresh : CacheManager := constructor CacheConfig.empty.

(** A cache of at most 20 bytes after [get("A")] (a miss) at time 0,
    [set("C","v")] at 0, [set("A","v")] at 1, [set("B","v")] at 2 and
    [get("C")] at 3: three entries of 6 bytes, last accessed at 3, 1
    and 2 in the order of the map. *)
Definition entryAt (t0 t : Z) : CacheEntry :=
  {| value := JString "v"; created := t0; lastAccessed := t;
     ttl := Some 3600; size := 6 |}.

Definition abc : CacheManager :=
  {| cache := [("C", entryAt 0 3); ("A", entryAt 1 1); ("B", entryAt 2 2)];
     stats :=
       {| totalEntries := 3; memoryUsage := 18; hits := 1; misses := 1;
          hitRate := Num.of_Z 50; avgAccessTime := Num.of_Z 4 |};
     config := config (withMaxMemory 20);
     sse := [cache_set "C" (JString "v"); cache_set "A" (JString "v");
             cache_set "B" (JString "v")] |}.

Definition abc_history : CacheManager :=
  let c0 := snd (get "A" (at_time 0) (withMaxMemory 20)) in
  let c1 := snd (set "C" (JString "v") None (at_time 0) c0) in
  let c2 := snd (set "A" (JString "v") None (at_time 1) c1) in
  let c3 := snd (set "B" (JString "v") None (at_time 2) c2) in
  snd (get "C" (at_time 3) c3).

End Sample.

(* ================================================================== *)
(** * The rest of the class, and the tool handler that calls it *)
(* ================================================================== *)

(** ** [evictStale] *)

(** The [for ... of] loop visits the entries in the order of the map;
    deleting the entry being visited leaves the rest of the iteration as
    it is.  Each call of [isExpired] reads [Date.now()]: [now i] is the
    reading taken for the [i]-th entry visited. *)
Fixpoint evictStale_loop (now : nat -> Z) (i : nat)
    (entries : list (string * CacheEntry)) (c : CacheManager) : CacheManager :=
  match entries with
  | [] => c
  | (key, entry) :: rest =>
      evictStale_loop now (S i) rest
        (if isExpired (now i) entry c then snd (delete key c) else c)
  end.

Definition evictStale (now : nat -> Z) (c : CacheManager) : CacheManager :=
  evictStale_loop now 0 (Map.entries (cache c)) c.

(** The entries of a list that are not expired, the [j]-th one judged at
    the reading [now (i + j)]. *)
Fixpoint freshFrom (now : nat -> Z) (c : CacheManager) (i : nat)
    (entries : list (string * CacheEntry)) : list (string * CacheEntry) :=
  match entries with
  | [] => []
  | p :: rest =>
      if isExpired (now i) (snd p) c
      then freshFrom now c (S i) rest
      else p :: freshFrom now c (S i) rest
  end.

(** The keys of the expired ones. *)
Fixpoint staleKeysFrom (now : nat -> Z) (c : CacheManager) (i : nat)
    (entries : list (string * CacheEntry)) : list string :=
  match entries with
  | [] => []
  | p :: rest =>
      if isExpired (now i) (snd p) c
      then fst p :: staleKeysFrom now c (S i) rest
      else staleKeysFrom now c (S i) rest
  end.

(** ** Every call on the manager *)

(** The public methods, and the two timers: [evictStale] runs every
    [checkInterval], [updateStats] every [statsInterval]. *)
Inductive Call : Type :=
| call_set (key : string) (v : JsValue) (ttl_arg : option Z) (clk : Clock)
| call_get (key : string) (clk : Clock)
| call_delete (key : string)
| call_clear
| call_evictStale (now : nat -> Z)
| call_updateStats
| call_destroy.

Definition exec (c : CacheManager) (call : Call) : CacheManager :=
  match call with
  | call_set key v ttl_arg clk => snd (set key v ttl_arg clk c)
  | call_get key clk => snd (get key clk c)
  | call_delete key => snd (delete key c)
  | call_clear => clear c
  | call_evictStale now => evictStale now c
  | call_updateStats => updateStats c
  | call_destroy => destroy c
  end.

Definition execAll (calls : list Call) (c : CacheManager) : CacheManager :=
  fold_left exec calls c.

(** The call replaces the statistics by zeros. *)
Definition resets (call : Call) : bool :=
  match call with
  | call_clear | call_destroy => true
  | _ => false
  end.

(** The number of [get] since the last reset, starting from [acc]. *)
Fixpoint requestsSinceReset (acc : Z) (calls : list Call) : Z :=
  match calls with
  | [] => acc
  | call_get _ _ :: rest => requestsSinceReset (acc + 1) rest
  | call_clear :: rest | call_destroy :: rest => requestsSinceReset 0 rest
  | _ :: rest => requestsSinceReset acc rest
  end.

(** ** What holds of every state the manager reaches *)

(** The size of an entry is the size computed from its value. *)
Definition sizedByValue (m : Map.t CacheEntry) : Prop :=
  forall k e, In (k, e) m -> calculateSize (value e) = Normal (size e).

Definition consistent (c : CacheManager) : Prop :=
  Map.wf (cache c) /\
  totalEntries (stats c) = Z.of_nat (List.length (cache c)) /\
  sizedByValue (cache c) /\
  liveSize (cache c) <= memoryUsage (stats c) /\
  hitRate (stats c) = hitRateOf (hits (stats c)) (misses (stats c)).

(** ** Which values have no size *)

Fixpoint containsBigInt (v : JsValue) : bool :=
  match v with
  | JBigInt _ => true
  | JArray elements => existsb containsBigInt elements
  | JObject properties => existsb (fun kv => containsBigInt (snd kv)) properties
  | _ => false
  end.

(** ** The tool handler of the MCP server ([src/index.ts]) *)

Module Tool.

(** [request.params]: the name of the tool and its arguments. *)
Inductive Request : Type :=
| store_data (key : string) (v : JsValue) (ttl_arg : option Z)
| retrieve_data (key : string)
| clear_cache (key : option string)
| get_cache_stats
| other (name : string).

(** The text of a reply: a literal or a template literal, or the result
    of a call that is kept as it is written. *)
Inductive Text : Type :=
| Literal (s : string)
| PrettyJSON (v : JsValue)        (* JSON.stringify(value, null, 2) *)
| PrettyStats (s : CacheStats)    (* JSON.stringify(stats, null, 2) *)
| MessageOf (e : JsError).        (* error.message *)

(** The reply: [isError] and [errorCode] are absent from a reply that
    reports no error. *)
Record Result : Type := {
  text : Text;
  isError : bool;
  errorCode : option string
}.

Definition reply (t : Text) : Result :=
  {| text := t; isError := false; errorCode := None |}.

(** The [catch] clause. *)
Definition caught (e : JsError) : Result :=
  {| text := MessageOf e; isError := true; errorCode := Some "InvalidArgument"%string |}.

Definition McpError : JsError := Error "McpError".

(** [if (key)]: an absent key and the empty string are falsy. *)
Definition truthy (key : option string) : bool :=
  match key with
  | Some (String _ _) => true
  | _ => false
  end.

(** The arguments of a request, as [JSON.stringify(request, null, 2)]
    meets them when the request is logged. *)
Definition logged (r : Request) : Completion (option string) :=
  match r with
  | store_data _ v _ => JSON.stringify v
  | _ => Normal None
  end.

(** The handler of [CallToolRequestSchema]. *)
Definition handle (r : Request) (clk : Clock) (c : CacheManager)
    : Result * CacheManager :=
  match logged r with
  | Throw e => (caught e, c)
  | Normal _ =>
      match r with
      | store_data key v ttl_arg =>
          match set key v ttl_arg clk c with
          | (Throw e, c') => (caught e, c')
          | (Normal _, c') =>
              (reply (Literal ("Successfully stored data with key: " ++ key)), c')
          end
      | retrieve_data key =>
          match get key clk c with
          | (JUndefined, c') =>
              ({| text := Literal ("No data found for key: " ++ key);
                  isError := true; errorCode := None |}, c')
          | (v, c') => (reply (PrettyJSON v), c')
          end
      | clear_cache key =>
          if truthy key
          then
            let k := nullish key EmptyString in
            let (success, c') := delete k c in
            (reply (Literal (if success
                             then "Successfully cleared cache entry: " ++ k
                             else "No cache entry found for key: " ++ k)), c')
          else (reply (Literal "Successfully cleared all cache entries"), clear c)
      | get_cache_stats => (reply (PrettyStats (getStats c)), c)
      | other name => (caught McpError, c)
      end
  end.

End Tool.

(** ** More sample inputs *)

Module Scenario.

Open Scope string_scope.

(** A sweep whose readings of the clock are all [t]. *)
Definition always (t : Z) : nat -> Z := fun _ => t.

(** A cache with an entry stored under the empty key and one under "j". *)
Definition withEmptyKey : CacheManager :=
  execAll [call_set "" (JString "w") None (Sample.at_time 4);
           call_set "j" (JNumber 7) None (Sample.at_time 5)]
    (Sample.withMaxMemory 20).

(** A new cache after a first [set]. *)
Definition afterFirstSet : CacheManager :=
  snd (set "k" (JString "v") None (Sample.at_time 5) Sample.fresh).

End Scenario.

(* ================================================================== *)
(** * Properties *)
(* ================================================================== *)

(** The sample state is one the engine reaches. *)
Lemma abc_is_reachable : Sample.abc_history = Sample.abc.
Proof. vm_compute. reflexivity. Qed.

(** ** The map *)

Module MapFacts.

Section WithValues.

Context {V : Type}.

Implicit Types (m : Map.t V) (k : string) (v : V).

Lemma get_In k v m : Map.get k m = Some v -> In (k, v) m.
Proof.
  induction m as [|[k' v'] r IH]; simpl; [discriminate|].
  destruct (String.eqb_spec k k') as [->|Hne]; intros H.
  - injection H as ->. now left.
  - right. now apply IH.
Qed.

Lemma get_None_keys k m : Map.get k m = None <-> ~ In k (Map.keys m).
Proof.
  induction m as [|[k' v'] r IH]; simpl.
  - tauto.
  - destruct (String.eqb_spec k k') as [->|Hne].
    + split; [discriminate|]. intros H. exfalso. apply H. now left.
    + rewrite IH. split.
      * intros H [E|E]; [congruence|tauto].
      * tauto.
Qed.

Lemma In_get k v m : Map.wf m -> In (k, v) m -> Map.get k m = Some v.
Proof.
  unfold Map.wf.
  induction m as [|[k' v'] r IH]; simpl; [tauto|].
  intros Hwf Hin. inversion Hwf as [|? ? Hnotin Hwf']; subst.
  destruct Hin as [E|Hin].
  - injection E as -> ->. now rewrite String.eqb_refl.
  - destruct (String.eqb_spec k k') as [->|Hne].
    + exfalso. apply Hnotin. change k' with (fst (k', v)). now apply in_map.
    + now apply IH.
Qed.

Lemma keys_delete_incl k k' m :
  In k' (Map.keys (Map.delete k m)) -> In k' (Map.keys m).
Proof.
  induction m as [|[k0 v0] r IH]; simpl; [tauto|].
  destruct (String.eqb k k0); simpl; intuition.
Qed.

Lemma wf_delete k m : Map.wf m -> Map.wf (Map.delete k m).
Proof.
  unfold Map.wf.
  induction m as [|[k0 v0] r IH]; simpl; [tauto|].
  intros Hwf. inversion Hwf as [|? ? Hnotin Hwf']; subst.
  destruct (String.eqb k k0); [now apply IH|].
  simpl. constructor; [|now apply IH].
  intros Hin. apply Hnotin. eapply keys_delete_incl, Hin.
Qed.

Lemma get_delete_same k m : Map.get k (Map.delete k m) = None.
Proof.
  induction m as [|[k0 v0] r IH]; simpl; [reflexivity|].
  destruct (String.eqb k k0) eqn:E; [exact IH|].
  simpl. now rewrite E.
Qed.

Lemma get_delete_other k k' m :
  k' <> k -> Map.get k' (Map.delete k m) = Map.get k' m.
Proof.
  intros Hne.
  induction m as [|[k0 v0] r IH]; simpl; [reflexivity|].
  destruct (String.eqb_spec k k0) as [->|Hne0]; simpl.
  - destruct (String.eqb_spec k' k0); [contradiction|exact IH].
  - destruct (String.eqb k' k0); [reflexivity|exact IH].
Qed.

Lemma delete_absent k m : Map.get k m = None -> Map.delete k m = m.
Proof.
  induction m as [|[k0 v0] r IH]; simpl; [reflexivity|].
  destruct (String.eqb k k0); [discriminate|].
  intros H. now rewrite IH.
Qed.

Lemma length_delete k v m :
  Map.wf m -> Map.get k m = Some v ->
  S (List.length (Map.delete k m)) = List.length m.
Proof.
  unfold Map.wf.
  induction m as [|[k0 v0] r IH]; simpl; [discriminate|].
  intros Hwf. inversion Hwf as [|? ? Hnotin Hwf']; subst.
  destruct (String.eqb_spec k k0) as [->|Hne]; intros H.
  - rewrite delete_absent; [reflexivity|]. now apply get_None_keys.
  - simpl. f_equal. now apply IH.
Qed.

Lemma keys_set k v m :
  Map.keys (Map.set k v m) =
  match Map.get k m with
  | Some _ => Map.keys m
  | None => Map.keys m ++ [k]
  end.
Proof.
  induction m as [|[k0 v0] r IH]; simpl; [reflexivity|].
  destruct (String.eqb_spec k k0) as [->|Hne]; simpl; [reflexivity|].
  rewrite IH. now destruct (Map.get k r).
Qed.

Lemma wf_set k v m : Map.wf m -> Map.wf (Map.set k v m).
Proof.
  unfold Map.wf. intros Hwf. rewrite keys_set.
  destruct (Map.get k m) eqn:E; [exact Hwf|].
  apply get_None_keys in E.
  apply NoDup_rev in Hwf.
  rewrite <- (rev_involutive (Map.keys m ++ [k])).
  apply NoDup_rev. rewrite rev_app_distr. simpl.
  constructor; [|exact Hwf].
  now rewrite <- in_rev.
Qed.

Lemma get_set_same k v m : Map.get k (Map.set k v m) = Some v.
Proof.
  induction m as [|[k0 v0] r IH]; simpl.
  - now rewrite String.eqb_refl.
  - destruct (String.eqb k k0) eqn:E; simpl.
    + now rewrite String.eqb_refl.
    + now rewrite E.
Qed.

Lemma get_set_other k k' v m :
  k' <> k -> Map.get k' (Map.set k v m) = Map.get k' m.
Proof.
  intros Hne.
  induction m as [|[k0 v0] r IH]; simpl.
  - destruct (String.eqb_spec k' k); [contradiction|reflexivity].
  - destruct (String.eqb_spec k k0) as [->|Hne0]; simpl.
    + destruct (String.eqb_spec k' k0); [contradiction|reflexivity].
    + destruct (String.eqb k' k0); [reflexivity|exact IH].
Qed.

Lemma length_set k v m :
  List.length (Map.set k v m) =
  match Map.get k m with
  | Some _ => List.length m
  | None => S (List.length m)
  end.
Proof.
  induction m as [|[k0 v0] r IH]; simpl; [reflexivity|].
  destruct (String.eqb k k0); simpl; [reflexivity|].
  rewrite IH. now destruct (Map.get k r).
Qed.

End WithValues.

End MapFacts.

Lemma liveSize_delete key entry (m : Map.t CacheEntry) :
  Map.wf m -> Map.get key m = Some entry ->
  liveSize (Map.delete key m) = liveSize m - size entry.
Proof.
  unfold Map.wf.
  induction m as [|[k0 e0] r IH]; simpl; [discriminate|].
  intros Hwf. inversion Hwf as [|? ? Hnotin Hwf']; subst.
  destruct (String.eqb_spec key k0) as [->|Hne]; intros H.
  - injection H as ->.
    rewrite MapFacts.delete_absent; [lia|]. now apply MapFacts.get_None_keys.
  - simpl. rewrite IH; auto. lia.
Qed.

Lemma liveSize_set key entry (m : Map.t CacheEntry) :
  liveSize (Map.set key entry m) =
  liveSize m + size entry -
  match Map.get key m with
  | Some old => size old
  | None => 0
  end.
Proof.
  induction m as [|[k0 e0] r IH]; simpl; [lia|].
  destruct (String.eqb key k0); simpl; [lia|].
  rewrite IH. lia.
Qed.

(** ** The sort of [enforceMemoryLimit] *)

Lemma sort_insert_perm {A : Type} (cmp : A -> A -> Z) x l :
  Permutation (sort_insert cmp x l) (x :: l).
Proof.
  induction l as [|y r IH]; simpl; [apply Permutation_refl|].
  destruct (cmp x y <=? 0); [apply Permutation_refl|].
  eapply perm_trans; [apply perm_skip, IH|apply perm_swap].
Qed.

Lemma Array_sort_perm {A : Type} (cmp : A -> A -> Z) l :
  Permutation (Array_sort cmp l) l.
Proof.
  induction l as [|x r IH]; simpl; [constructor|].
  eapply perm_trans; [apply sort_insert_perm|]. now apply perm_skip.
Qed.

Lemma byLastAccessed_le a b :
  (byLastAccessed a b <=? 0) = true <-> olderOrEqual a b.
Proof. unfold byLastAccessed, olderOrEqual. rewrite Z.leb_le. lia. Qed.

Lemma sort_insert_sorted x l :
  StronglySorted olderOrEqual l ->
  StronglySorted olderOrEqual (sort_insert byLastAccessed x l).
Proof.
  induction l as [|y r IH]; simpl; intros Hs.
  - repeat constructor.
  - inversion Hs as [|? ? Hr Hy]; subst.
    destruct (byLastAccessed x y <=? 0) eqn:E.
    + apply byLastAccessed_le in E. constructor; [exact Hs|].
      constructor; [exact E|].
      eapply Forall_impl; [|exact Hy].
      unfold olderOrEqual in *. intros; lia.
    + constructor; [now apply IH|].
      eapply Permutation_Forall.
      * apply Permutation_sym, sort_insert_perm.
      * constructor; [|exact Hy].
        apply Z.leb_gt in E. unfold byLastAccessed, olderOrEqual in *. lia.
Qed.

Lemma Array_sort_sorted l :
  StronglySorted olderOrEqual (Array_sort byLastAccessed l).
Proof.
  induction l as [|x r IH]; simpl; [constructor|now apply sort_insert_sorted].
Qed.

Lemma sort_insert_stable t x l :
  filter (accessedAt t) (sort_insert byLastAccessed x l) =
  filter (accessedAt t) (x :: l).
Proof.
  induction l as [|y r IH]; [reflexivity|].
  cbn [sort_insert].
  destruct (byLastAccessed x y <=? 0) eqn:E; [reflexivity|].
  apply Z.leb_gt in E. unfold byLastAccessed in E.
  cbn [filter] in *. rewrite IH. unfold accessedAt.
  destruct (Z.eqb_spec (lastAccessed (snd x)) t) as [Hx|Hx];
    destruct (Z.eqb_spec (lastAccessed (snd y)) t) as [Hy|Hy];
    try reflexivity.
  exfalso. lia.
Qed.

Lemma Array_sort_stable t l :
  filter (accessedAt t) (Array_sort byLastAccessed l) = filter (accessedAt t) l.
Proof.
  induction l as [|x r IH]; [reflexivity|].
  cbn [Array_sort]. rewrite sort_insert_stable. cbn [filter]. now rewrite IH.
Qed.

Lemma Array_sort_lruOrder (m : Map.t CacheEntry) :
  lruOrder m (Array_sort byLastAccessed (Map.entries m)).
Proof.
  repeat split.
  - apply Array_sort_perm.
  - apply Array_sort_sorted.
  - intros t. apply Array_sort_stable.
Qed.

(** ** What [delete] touches *)

Lemma cache_delete_eq key c :
  cache (snd (delete key c)) = Map.delete key (cache c).
Proof.
  unfold delete. destruct (Map.get key (cache c)) eqn:E; simpl; [reflexivity|].
  symmetry. now apply MapFacts.delete_absent.
Qed.

Lemma config_delete key c : config (snd (delete key c)) = config c.
Proof. unfold delete. now destruct (Map.get key (cache c)). Qed.

Lemma counters_delete key c :
  hits (stats (snd (delete key c))) = hits (stats c) /\
  misses (stats (snd (delete key c))) = misses (stats c) /\
  hitRate (stats (snd (delete key c))) = hitRate (stats c) /\
  avgAccessTime (stats (snd (delete key c))) = avgAccessTime (stats c).
Proof. unfold delete. now destruct (Map.get key (cache c)). Qed.

Lemma memoryUsage_delete key entry c :
  Map.get key (cache c) = Some entry ->
  memoryUsage (stats (snd (delete key c))) = memoryUsage (stats c) - size entry.
Proof. unfold delete. intros ->. reflexivity. Qed.

Lemma delete_found key c :
  Map.get key (cache c) <> None -> fst (delete key c) = true.
Proof. unfold delete. now destruct (Map.get key (cache c)). Qed.

Lemma wf_cache_delete key c :
  Map.wf (cache c) -> Map.wf (cache (snd (delete key c))).
Proof. rewrite cache_delete_eq. apply MapFacts.wf_delete. Qed.

Lemma accounted_delete key c :
  Map.wf (cache c) -> accounted c -> accounted (snd (delete key c)).
Proof.
  intros Hwf [Hm Hn]. unfold delete.
  destruct (Map.get key (cache c)) as [entry|] eqn:E; [|now split].
  split; simpl.
  - rewrite (liveSize_delete key entry); auto. lia.
  - reflexivity.
Qed.

Lemma deleteAll_cons key keys c :
  deleteAll (key :: keys) c = deleteAll keys (snd (delete key c)).
Proof. reflexivity. Qed.

Lemma config_deleteAll keys c : config (deleteAll keys c) = config c.
Proof.
  revert c. induction keys as [|k r IH]; intros c; [reflexivity|].
  rewrite deleteAll_cons, IH. apply config_delete.
Qed.

Lemma counters_deleteAll keys c :
  hits (stats (deleteAll keys c)) = hits (stats c) /\
  misses (stats (deleteAll keys c)) = misses (stats c) /\
  hitRate (stats (deleteAll keys c)) = hitRate (stats c) /\
  avgAccessTime (stats (deleteAll keys c)) = avgAccessTime (stats c).
Proof.
  revert c. induction keys as [|k r IH]; intros c; [now repeat split|].
  rewrite deleteAll_cons.
  destruct (IH (snd (delete k c))) as (H1 & H2 & H3 & H4).
  destruct (counters_delete k c) as (D1 & D2 & D3 & D4).
  repeat split; congruence.
Qed.

Lemma wf_deleteAll keys c :
  Map.wf (cache c) -> Map.wf (cache (deleteAll keys c)).
Proof.
  revert c. induction keys as [|k r IH]; intros c Hwf; [exact Hwf|].
  rewrite deleteAll_cons. now apply IH, wf_cache_delete.
Qed.

Lemma accounted_deleteAll keys c :
  Map.wf (cache c) -> accounted c -> accounted (deleteAll keys c).
Proof.
  revert c. induction keys as [|k r IH]; intros c Hwf Hacc; [exact Hacc|].
  rewrite deleteAll_cons.
  apply IH; [now apply wf_cache_delete|now apply accounted_delete].
Qed.

Lemma deleteAll_every_key keys c :
  (forall k, In k (Map.keys (cache c)) -> In k keys) ->
  cache (deleteAll keys c) = [].
Proof.
  revert c. induction keys as [|k r IH]; intros c Hall.
  - simpl. destruct (cache c) as [|[k0 e0] m]; [reflexivity|].
    exfalso. apply (Hall k0). now left.
  - rewrite deleteAll_cons. apply IH. intros k'.
    rewrite cache_delete_eq. intros Hin.
    destruct (String.eqb_spec k' k) as [->|Hne].
    + exfalso. revert Hin. apply MapFacts.get_None_keys, MapFacts.get_delete_same.
    + apply MapFacts.keys_delete_incl in Hin.
      destruct (Hall k' Hin) as [E|H]; [congruence|exact H].
Qed.

(** ** Eviction *)

Lemma loop_evicts_prefix requiredSize order c :
  NoDup (map fst order) ->
  (forall k, In k (map fst order) -> Map.get k (cache c) <> None) ->
  exists n : nat,
    (n <= List.length order)%nat /\
    enforceMemoryLimit_loop requiredSize order c =
      deleteAll (firstn n (map fst order)) c /\
    (forall j key, (j < n)%nat -> nth_error (map fst order) j = Some key ->
       let cj := deleteAll (firstn j (map fst order)) c in
       memoryUsage (stats cj) + requiredSize > maxMemory (config c) /\
       fst (delete key cj) = true) /\
    (memoryUsage (stats (enforceMemoryLimit_loop requiredSize order c))
       + requiredSize <= maxMemory (config c) \/
     n = List.length order).
Proof.
  revert c. induction order as [|[k e] rest IH]; intros c Hnd Hpres.
  - exists 0%nat. split; [simpl; lia|]. split; [reflexivity|].
    split; [intros; lia|]. now right.
  - cbn [map fst] in Hnd, Hpres. inversion Hnd as [|? ? Hnotin Hnd']; subst.
    cbn [enforceMemoryLimit_loop].
    destruct (memoryUsage (stats c) + requiredSize >? maxMemory (config c)) eqn:E.
    + destruct (IH (snd (delete k c)) Hnd') as (n & Hn & Heq & Hsteps & Hstop).
      { intros k' Hin. rewrite cache_delete_eq, MapFacts.get_delete_other.
        - apply Hpres. now right.
        - intros ->. contradiction. }
      rewrite config_delete in Hsteps, Hstop.
      exists (S n). cbn [map fst firstn List.length]. rewrite deleteAll_cons.
      split; [lia|]. split; [exact Heq|]. split.
      * intros [|j] key Hj Hnth; cbn [firstn nth_error] in *.
        -- injection Hnth as <-. split.
           ++ apply Z.gtb_lt in E. simpl. lia.
           ++ apply delete_found, Hpres. now left.
        -- rewrite deleteAll_cons. apply Hsteps; [lia|exact Hnth].
      * destruct Hstop as [H|H]; [now left|right; lia].
    + exists 0%nat. cbn [firstn]. split; [lia|]. split; [reflexivity|].
      split; [intros; lia|]. left.
      destruct (Z.gtb_spec (memoryUsage (stats c) + requiredSize)
                  (maxMemory (config c))); [discriminate|lia].
Qed.

Lemma order_keys_wf (m : Map.t CacheEntry) order :
  Map.wf m -> Permutation order m -> NoDup (map fst order).
Proof.
  intros Hwf Hperm. eapply Permutation_NoDup; [|exact Hwf].
  apply Permutation_sym, Permutation_map, Hperm.
Qed.

Lemma enforceMemoryLimit_evictsPrefix requiredSize c :
  Map.wf (cache c) ->
  evictsPrefix requiredSize (Array_sort byLastAccessed (Map.entries (cache c)))
    c (enforceMemoryLimit requiredSize c).
Proof.
  intros Hwf. unfold enforceMemoryLimit.
  set (order := Array_sort byLastAccessed (Map.entries (cache c))).
  assert (Hperm : Permutation order (cache c)) by apply Array_sort_perm.
  destruct (loop_evicts_prefix requiredSize order c)
    as (n & Hn & Heq & Hsteps & Hstop).
  - now apply order_keys_wf with (m := cache c).
  - intros k Hin Hnone. apply MapFacts.get_None_keys in Hnone. apply Hnone.
    eapply Permutation_in; [apply Permutation_map, Hperm|exact Hin].
  - exists n. split; [exact Hn|]. split; [exact Heq|]. split; [exact Hsteps|].
    destruct Hstop as [H|H]; [now left|right].
    rewrite Heq, H, <- (length_map fst), firstn_all.
    apply deleteAll_every_key. intros k Hin.
    eapply Permutation_in; [apply Permutation_sym, Permutation_map, Hperm|exact Hin].
Qed.

(** The entries the loop leaves are the ones the statistics still count. *)
Lemma enforceMemoryLimit_keeps requiredSize c :
  Map.wf (cache c) ->
  config (enforceMemoryLimit requiredSize c) = config c /\
  hits (stats (enforceMemoryLimit requiredSize c)) = hits (stats c) /\
  misses (stats (enforceMemoryLimit requiredSize c)) = misses (stats c) /\
  hitRate (stats (enforceMemoryLimit requiredSize c)) = hitRate (stats c) /\
  avgAccessTime (stats (enforceMemoryLimit requiredSize c)) = avgAccessTime (stats c) /\
  Map.wf (cache (enforceMemoryLimit requiredSize c)) /\
  (accounted c -> accounted (enforceMemoryLimit requiredSize c)).
Proof.
  intros Hwf.
  destruct (enforceMemoryLimit_evictsPrefix requiredSize c Hwf) as (n & _ & -> & _).
  destruct (counters_deleteAll
              (firstn n (map fst (Array_sort byLastAccessed (Map.entries (cache c))))) c)
    as (H1 & H2 & H3 & H4).
  repeat split; auto using config_deleteAll, wf_deleteAll.
  - apply accounted_deleteAll; assumption.
  - apply accounted_deleteAll; assumption.
Qed.

Lemma evicts_least_recent_only requiredSize c kA eA :
  Map.wf (cache c) ->
  In (kA, eA) (cache c) ->
  (forall k e, In (k, e) (cache c) -> k <> kA ->
     lastAccessed eA < lastAccessed e) ->
  memoryUsage (stats c) + requiredSize > maxMemory (config c) ->
  memoryUsage (stats c) - size eA + requiredSize <= maxMemory (config c) ->
  enforceMemoryLimit requiredSize c = snd (delete kA c).
Proof.
  intros Hwf HA Hleast Hover Hfits. unfold enforceMemoryLimit.
  pose proof (Array_sort_perm byLastAccessed (Map.entries (cache c))) as Hperm.
  pose proof (Array_sort_sorted (Map.entries (cache c))) as Hsorted.
  destruct (Array_sort byLastAccessed (Map.entries (cache c))) as [|[k e] rest].
  - exfalso. apply Permutation_nil in Hperm. unfold Map.entries in Hperm.
    rewrite Hperm in HA. contradiction.
  - assert (Hhead : In (k, e) (cache c)).
    { eapply Permutation_in; [exact Hperm|now left]. }
    assert (HAin : In (kA, eA) ((k, e) :: rest)).
    { eapply Permutation_in; [apply Permutation_sym, Hperm|exact HA]. }
    inversion Hsorted as [|? ? _ Hle]; subst.
    assert (Hk : k = kA).
    { destruct (String.eqb_spec k kA) as [E|Hne]; [exact E|exfalso].
      specialize (Hleast k e Hhead Hne).
      destruct HAin as [E|Hin]; [congruence|].
      rewrite Forall_forall in Hle. specialize (Hle _ Hin).
      unfold olderOrEqual in Hle. simpl in Hle. lia. }
    subst k.
    assert (He : e = eA).
    { pose proof (MapFacts.In_get _ _ _ Hwf Hhead) as G1.
      pose proof (MapFacts.In_get _ _ _ Hwf HA) as G2. congruence. }
    subst e.
    cbn [enforceMemoryLimit_loop].
    destruct (Z.gtb_spec (memoryUsage (stats c) + requiredSize)
                (maxMemory (config c))) as [_|Hno]; [|lia].
    destruct rest as [|[k2 e2] rest2]; [reflexivity|].
    cbn [enforceMemoryLimit_loop].
    rewrite config_delete,
      (memoryUsage_delete kA eA c (MapFacts.In_get _ _ _ Hwf HA)).
    destruct (Z.gtb_spec (memoryUsage (stats c) - size eA + requiredSize)
                (maxMemory (config c))) as [Hyes|_]; [lia|reflexivity].
Qed.

(** ** What [set] does when the value has a size *)

Lemma makeRoom_keeps requiredSize c :
  Map.wf (cache c) ->
  config (makeRoom requiredSize c) = config c /\
  hits (stats (makeRoom requiredSize c)) = hits (stats c) /\
  misses (stats (makeRoom requiredSize c)) = misses (stats c) /\
  hitRate (stats (makeRoom requiredSize c)) = hitRate (stats c) /\
  avgAccessTime (stats (makeRoom requiredSize c)) = avgAccessTime (stats c) /\
  Map.wf (cache (makeRoom requiredSize c)) /\
  (accounted c -> accounted (makeRoom requiredSize c)).
Proof.
  intros Hwf. unfold makeRoom.
  destruct (memoryUsage (stats c) + requiredSize >? maxMemory (config c)).
  - now apply enforceMemoryLimit_keeps.
  - intuition.
Qed.

Lemma set_Normal key v ttl_arg clk c sz :
  calculateSize v = Normal sz ->
  set key v ttl_arg clk c =
  (Normal tt,
   let c1 := makeRoom sz c in
   let cache' := Map.set key (newEntry v ttl_arg clk c1 sz) (cache c1) in
   {| cache := cache';
      stats :=
        {| totalEntries := Map.size cache';
           memoryUsage := memoryUsage (stats c1) + sz;
           hits := hits (stats c1);
           misses := misses (stats c1);
           hitRate := hitRate (stats c1);
           avgAccessTime :=
             runningMean (avgAccessTime (stats c1))
               (hits (stats c1) + misses (stats c1)) (duration clk) |};
      config := config c1;
      sse := sse c1 ++ [cache_set key v] |}).
Proof. unfold set. intros ->. reflexivity. Qed.

Lemma set_Throw key v ttl_arg clk c e :
  calculateSize v = Throw e -> set key v ttl_arg clk c = (Throw e, c).
Proof. unfold set. intros ->. reflexivity. Qed.

(** C3.  When [set] finds that [memoryUsage + size] exceeds [maxMemory],
    the entries are visited in ascending [lastAccessed] order, entries
    with equal [lastAccessed] in the order of the map; a prefix of that
    order is removed, each entry by a call of [delete] that finds it, and
    the prefix ends as soon as the projected usage fits or no entry is
    left; the new entry goes into what remains.  In particular, when one
    entry is strictly the least recently accessed and removing it alone
    makes room, that entry is the only one removed. *)
Theorem lru_eviction_on_put key v ttl_arg clk c sz :
  Map.wf (cache c) ->
  calculateSize v = Normal sz ->
  memoryUsage (stats c) + sz > maxMemory (config c) ->
  let order := Array_sort byLastAccessed (Map.entries (cache c)) in
  let c' := enforceMemoryLimit sz c in
  lruOrder (cache c) order /\
  evictsPrefix sz order c c' /\
  cache (snd (set key v ttl_arg clk c)) =
    Map.set key (newEntry v ttl_arg clk c sz) (cache c') /\
  (forall kA eA,
     In (kA, eA) (cache c) ->
     (forall k e, In (k, e) (cache c) -> k <> kA ->
        lastAccessed eA < lastAccessed e) ->
     memoryUsage (stats c) - size eA + sz <= maxMemory (config c) ->
     c' = snd (delete kA c)).
Proof.
  intros Hwf Hsz Hover order c'.
  split; [apply Array_sort_lruOrder|].
  split; [now apply enforceMemoryLimit_evictsPrefix|].
  split.
  - rewrite (set_Normal _ _ _ _ _ _ Hsz). cbn [snd cache].
    unfold makeRoom.
    destruct (Z.gtb_spec (memoryUsage (stats c) + sz) (maxMemory (config c)));
      [|lia].
    unfold newEntry.
    now destruct (enforceMemoryLimit_keeps sz c Hwf) as (-> & _).
  - intros kA eA HA Hleast Hfits.
    now apply evicts_least_recent_only with (eA := eA).
Qed.

Lemma abc_wf : Map.wf (cache Sample.abc).
Proof.
  unfold Map.wf. simpl.
  repeat constructor; simpl; intuition discriminate.
Qed.

(** With A read at 1, B at 2 and C at 3, a [set] that needs one eviction
    removes A and keeps B and C. *)
Lemma lru_eviction_on_put_witness :
  enforceMemoryLimit 6 Sample.abc = snd (delete "A" Sample.abc) /\
  Map.keys (cache (snd (set "D" (JString "v") None (Sample.at_time 4) Sample.abc)))
  = ["C"; "B"; "D"]%string.
Proof.
  destruct (lru_eviction_on_put "D" (JString "v") None (Sample.at_time 4)
              Sample.abc 6 abc_wf eq_refl)
    as (_ & _ & Hcache & Hone).
  - vm_compute. reflexivity.
  - split.
    + apply (Hone "A"%string (Sample.entryAt 1 1)).
      * simpl. right. left. reflexivity.
      * intros k e [E|[E|[E|[]]]] Hne; injection E as <- <-; simpl;
          solve [lia | congruence].
      * vm_compute. discriminate.
    + rewrite Hcache. vm_compute. reflexivity.
Defined.

(** ** [delete] and [clear] *)

(** C8.  [delete] on a key of the map returns true, subtracts the entry's
    size from [memoryUsage], takes the entry (and no other) out of the map,
    sets [totalEntries] to the number of entries left, one less than
    before, and sends one [cache-delete] event for the key; on a key that
    is not in the map it returns false and the state is the one it was
    given. *)
Theorem delete_existing_or_not key c :
  (forall entry,
     Map.get key (cache c) = Some entry ->
     let c' := snd (delete key c) in
     fst (delete key c) = true /\
     memoryUsage (stats c') = memoryUsage (stats c) - size entry /\
     cache c' = Map.delete key (cache c) /\
     Map.get key (cache c') = None /\
     (forall k, k <> key -> Map.get k (cache c') = Map.get k (cache c)) /\
     totalEntries (stats c') = Z.of_nat (List.length (cache c')) /\
     (Map.wf (cache c) ->
      totalEntries (stats c') = Z.of_nat (List.length (cache c)) - 1) /\
     sse c' = sse c ++ [cache_delete key] /\
     hits (stats c') = hits (stats c) /\
     misses (stats c') = misses (stats c) /\
     hitRate (stats c') = hitRate (stats c) /\
     avgAccessTime (stats c') = avgAccessTime (stats c) /\
     config c' = config c) /\
  (Map.get key (cache c) = None -> delete key c = (false, c)).
Proof.
  split.
  - intros entry Hget c'. subst c'. unfold delete. rewrite Hget. cbn.
    repeat split.
    + apply MapFacts.get_delete_same.
    + intros k Hne. now apply MapFacts.get_delete_other.
    + intros Hwf. unfold Map.size.
      pose proof (MapFacts.length_delete key entry (cache c) Hwf Hget). lia.
  - intros Hget. unfold delete. now rewrite Hget.
Qed.

Lemma delete_existing_or_not_witness :
  delete "A" Sample.abc =
    (true,
     {| cache := [("C", Sample.entryAt 0 3); ("B", Sample.entryAt 2 2)]%string;
        stats :=
          {| totalEntries := 2; memoryUsage := 12; hits := 1; misses := 1;
             hitRate := Num.of_Z 50; avgAccessTime := Num.of_Z 4 |};
        config := config Sample.abc;
        sse := sse Sample.abc ++ [cache_delete "A"] |}) /\
  delete "Z" Sample.abc = (false, Sample.abc).
Proof.
  destruct (delete_existing_or_not "A" Sample.abc) as [Hyes _].
  destruct (delete_existing_or_not "Z" Sample.abc) as [_ Hno].
  specialize (Hyes (Sample.entryAt 1 1) eq_refl).
  specialize (Hno eq_refl).
  split; [|exact Hno].
  destruct Hyes as (Hret & _).
  revert Hret. vm_compute. reflexivity.
Defined.

(** C9.  After [clear] the map is empty and [getStats] returns zero in
    every field, whatever the state was; no event is sent. *)
Theorem clear_resets_everything c :
  cache (clear c) = [] /\
  getStats (clear c) =
    {| totalEntries := 0; memoryUsage := 0; hits := 0; misses := 0;
       hitRate := Num.zero; avgAccessTime := Num.zero |} /\
  sse (clear c) = sse c /\
  config (clear c) = config c.
Proof. repeat split. Qed.

(** ** Expiry *)

Lemma makeRoom_empty requiredSize c :
  cache c = [] -> makeRoom requiredSize c = c.
Proof.
  intros Hempty. unfold makeRoom, enforceMemoryLimit, Map.entries.
  rewrite Hempty. simpl.
  now destruct (memoryUsage (stats c) + requiredSize >? maxMemory (config c)).
Qed.

Lemma isExpired_iff now entry c :
  isExpired now entry c = true <->
  now > created entry + nullish (ttl entry) (defaultTTL (config c)) * 1000.
Proof. unfold isExpired. rewrite Z.gtb_lt. lia. Qed.

Lemma get_expired key clk c entry :
  Map.get key (cache c) = Some entry ->
  isExpired (dateNow1 clk) entry c = true ->
  get key clk c = (JUndefined, updateHitRate (incrMisses (snd (delete key c)))).
Proof. unfold get. intros -> ->. reflexivity. Qed.

Lemma get_absent key clk c :
  Map.get key (cache c) = None ->
  get key clk c = (JUndefined, updateHitRate (incrMisses c)).
Proof. unfold get. intros ->. reflexivity. Qed.

(** C4.  An entry is expired exactly when the time read is greater than
    [created + ttl * 1000]; [get] on an expired entry returns [undefined],
    takes the entry out of the map and counts a miss; so on a new cache,
    [set] followed by a [get] past the ttl returns [undefined] and leaves
    [totalEntries] at 0. *)
Theorem expired_entry_is_purged_on_get :
  (forall now entry c,
     isExpired now entry c = true <->
     now > created entry + nullish (ttl entry) (defaultTTL (config c)) * 1000) /\
  (forall key clk c entry,
     Map.get key (cache c) = Some entry ->
     dateNow1 clk > created entry + nullish (ttl entry) (defaultTTL (config c)) * 1000 ->
     let c' := snd (get key clk c) in
     fst (get key clk c) = JUndefined /\
     cache c' = Map.delete key (cache c) /\
     Map.get key (cache c') = None /\
     totalEntries (stats c') = Z.of_nat (List.length (cache c')) /\
     misses (stats c') = misses (stats c) + 1 /\
     hits (stats c') = hits (stats c)) /\
  (forall cfg key v ttl_arg clk clk' sz,
     calculateSize v = Normal sz ->
     dateNow1 clk' >
       dateNow1 clk + nullish ttl_arg (defaultTTL (config (constructor cfg))) * 1000 ->
     let c1 := snd (set key v ttl_arg clk (constructor cfg)) in
     Map.keys (cache c1) = [key] /\
     fst (get key clk' c1) = JUndefined /\
     cache (snd (get key clk' c1)) = [] /\
     totalEntries (stats (snd (get key clk' c1))) = 0).
Proof.
  split; [exact isExpired_iff|]. split.
  - intros key clk c entry Hget Hlate c'. subst c'.
    apply isExpired_iff in Hlate.
    rewrite (get_expired key clk c entry Hget Hlate).
    unfold delete. rewrite Hget. cbn.
    repeat split. apply MapFacts.get_delete_same.
  - intros cfg key v ttl_arg clk clk' sz Hsz Hlate c1. subst c1.
    rewrite (set_Normal _ _ _ _ _ _ Hsz).
    rewrite makeRoom_empty by reflexivity.
    cbn [snd cache constructor Map.set Map.empty Map.keys map fst].
    split; [reflexivity|].
    unfold get. cbn [cache Map.get]. rewrite String.eqb_refl.
    replace (isExpired _ _ _) with true.
    + unfold delete. cbn [cache Map.get]. rewrite String.eqb_refl.
      cbn. rewrite String.eqb_refl. repeat split.
    + symmetry. apply isExpired_iff. exact Hlate.
Qed.

Lemma expired_entry_is_purged_on_get_witness :
  let c1 := snd (set "k" (JString "v") None (Sample.at_time 1000) Sample.fresh) in
  fst (get "k" (Sample.at_time 3601001) c1) = JUndefined /\
  totalEntries (stats (snd (get "k" (Sample.at_time 3601001) c1))) = 0 /\
  fst (get "k" (Sample.at_time 3601000) c1) = JString "v".
Proof.
  destruct expired_entry_is_purged_on_get as (_ & _ & Hscenario).
  destruct (Hscenario CacheConfig.empty "k"%string (JString "v") None
              (Sample.at_time 1000) (Sample.at_time 3601001) 6 eq_refl)
    as (_ & Hret & _ & Htotal).
  - vm_compute. reflexivity.
  - split; [exact Hret|]. split; [exact Htotal|]. vm_compute. reflexivity.
Defined.

(** ** Keys stay unique *)

Lemma wf_constructor cfg : Map.wf (cache (constructor cfg)).
Proof. constructor. Qed.

Lemma wf_after_set key v ttl_arg clk c :
  Map.wf (cache c) -> Map.wf (cache (snd (set key v ttl_arg clk c))).
Proof.
  intros Hwf. destruct (calculateSize v) as [sz|e] eqn:Hsz.
  - rewrite (set_Normal _ _ _ _ _ _ Hsz). cbn.
    apply MapFacts.wf_set. now apply makeRoom_keeps.
  - now rewrite (set_Throw _ _ _ _ _ _ Hsz).
Qed.

Lemma wf_after_get key clk c :
  Map.wf (cache c) -> Map.wf (cache (snd (get key clk c))).
Proof.
  intros Hwf. unfold get.
  destruct (Map.get key (cache c)) as [entry|]; [|exact Hwf].
  destruct (isExpired (dateNow1 clk) entry c); cbn.
  - now apply wf_cache_delete.
  - now apply MapFacts.wf_set.
Qed.

Lemma wf_after_run ops c : Map.wf (cache c) -> Map.wf (cache (run ops c)).
Proof.
  revert c. induction ops as [|o r IH]; intros c Hwf; [exact Hwf|].
  apply IH. destruct o; [now apply wf_after_set|now apply wf_cache_delete].
Qed.

(** ** Misses and latency *)

Lemma loop_counters requiredSize entries c :
  hits (stats (enforceMemoryLimit_loop requiredSize entries c)) = hits (stats c) /\
  misses (stats (enforceMemoryLimit_loop requiredSize entries c)) = misses (stats c) /\
  avgAccessTime (stats (enforceMemoryLimit_loop requiredSize entries c))
    = avgAccessTime (stats c).
Proof.
  revert c. induction entries as [|[k e] rest IH]; intros c; [now repeat split|].
  cbn [enforceMemoryLimit_loop].
  destruct (memoryUsage (stats c) + requiredSize >? maxMemory (config c));
    [|now repeat split].
  destruct (IH (snd (delete k c))) as (H1 & H2 & H3).
  destruct (counters_delete k c) as (D1 & D2 & _ & D4).
  repeat split; congruence.
Qed.

Lemma makeRoom_counters requiredSize c :
  hits (stats (makeRoom requiredSize c)) = hits (stats c) /\
  misses (stats (makeRoom requiredSize c)) = misses (stats c) /\
  avgAccessTime (stats (makeRoom requiredSize c)) = avgAccessTime (stats c).
Proof.
  unfold makeRoom, enforceMemoryLimit.
  destruct (memoryUsage (stats c) + requiredSize >? maxMemory (config c));
    [apply loop_counters|now repeat split].
Qed.

Lemma get_miss_state key clk c :
  isMiss key clk c = true ->
  exists c0,
    get key clk c = (JUndefined, updateHitRate (incrMisses c0)) /\
    hits (stats c0) = hits (stats c) /\
    misses (stats c0) = misses (stats c) /\
    avgAccessTime (stats c0) = avgAccessTime (stats c).
Proof.
  unfold isMiss. destruct (Map.get key (cache c)) as [entry|] eqn:Hget; intros Hmiss.
  - exists (snd (delete key c)).
    rewrite (get_expired key clk c entry Hget Hmiss).
    destruct (counters_delete key c) as (D1 & D2 & _ & D4). now repeat split.
  - exists c. rewrite (get_absent key clk c Hget). now repeat split.
Qed.

(** What the two miss branches of [get] do.  On a key that is absent or
    whose entry is expired, [get] returns [undefined], adds one to
    [misses], leaves [hits] alone and recomputes [hitRate] from the two
    counters; both branches return before [updateAccessTime] is reached,
    so the duration measured from [startTime] is dropped and
    [avgAccessTime] stays as it was, although the divisor of the running
    mean, [hits + misses], has grown by one. *)
Theorem get_miss_counts_without_latency key clk c :
  isMiss key clk c = true ->
  let c' := snd (get key clk c) in
  fst (get key clk c) = JUndefined /\
  misses (stats c') = misses (stats c) + 1 /\
  hits (stats c') = hits (stats c) /\
  hitRate (stats c') = hitRateOf (hits (stats c')) (misses (stats c')) /\
  avgAccessTime (stats c') = avgAccessTime (stats c).
Proof.
  intros Hmiss c'. subst c'.
  destruct (get_miss_state key clk c Hmiss) as (c0 & -> & Hh & Hm & Ha).
  cbn. unfold hitRateOf. rewrite Hh, Hm, Ha. repeat split.
Qed.

Lemma get_miss_counts_without_latency_witness :
  get "Z" (Sample.timed 8 5) Sample.abc =
    (JUndefined,
     with_stats
       {| totalEntries := 3; memoryUsage := 18; hits := 1; misses := 2;
          hitRate := hitRateOf 1 2; avgAccessTime := Num.of_Z 4 |}
       Sample.abc).
Proof.
  pose proof (get_miss_counts_without_latency "Z" (Sample.timed 8 5) Sample.abc
                eq_refl) as (Hret & _).
  revert Hret. vm_compute. reflexivity.
Defined.

(** The sentence of the specification on a miss does not hold of
    [get("Z")] on the sample cache: the miss takes 8 ms, the running mean
    of the old average, 4 ms, over the 3 requests would be 16/3 ms, and
    [avgAccessTime] is still 4 ms. *)
Lemma miss_as_specified_fails :
  ~ missAsSpecified "Z" (Sample.timed 8 5) Sample.abc.
Proof.
  unfold missAsSpecified. intros H.
  destruct (H eq_refl) as (_ & _ & _ & Hlat).
  revert Hlat. vm_compute. discriminate.
Qed.

(** C5 on the code.  [get("Z")] on the sample cache, a miss that takes
    8 ms: it returns [undefined], [misses] goes from 1 to 2 and [hitRate]
    is recomputed, but the latency is not recorded: [avgAccessTime] is
    still 4 ms, where the running mean over the 3 requests is 16/3 ms.
    The same call on the key "A", which hits, does record it. *)
Theorem miss_returns_before_recording_latency :
  let clk := Sample.timed 8 5 in
  let c' := snd (get "Z" clk Sample.abc) in
  isMiss "Z" clk Sample.abc = true /\
  fst (get "Z" clk Sample.abc) = JUndefined /\
  misses (stats c') = misses (stats Sample.abc) + 1 /\
  hitRate (stats c') = hitRateOf 1 2 /\
  avgAccessTime (stats c') = Num.of_Z 4 /\
  runningMean (avgAccessTime (stats Sample.abc)) 3 (duration clk) <> Num.of_Z 4 /\
  ~ latencyRecorded clk Sample.abc c' /\
  latencyRecorded clk Sample.abc (snd (get "A" clk Sample.abc)).
Proof.
  cbv zeta. repeat split; try (vm_compute; reflexivity);
    unfold latencyRecorded; vm_compute; discriminate.
Qed.

Lemma get_hit key clk c entry :
  Map.get key (cache c) = Some entry ->
  isExpired (dateNow1 clk) entry c = false ->
  get key clk c =
  (value entry,
   updateAccessTime (duration clk)
     (updateHitRate
        (incrHits
           (with_cache
              (Map.set key
                 {| value := value entry; created := created entry;
                    lastAccessed := dateNow2 clk;
                    ttl := ttl entry; size := size entry |}
                 (cache c)) c)))).
Proof. unfold get. intros -> ->. reflexivity. Qed.

(** Where the running mean is applied.  A [set] that returns and a [get]
    that hits replace [avgAccessTime] by [(avgAccessTime * (n - 1) + d) / n],
    where [d] is the measured duration and [n] is [hits + misses] as the
    counters stand when the call ends ([set] leaves them alone, a hit has
    added one to [hits]). *)
Lemma latency_is_running_mean_on_put_and_hit :
  (forall key v ttl_arg clk c sz,
     calculateSize v = Normal sz ->
     let c' := snd (set key v ttl_arg clk c) in
     latencyRecorded clk c c' /\
     hits (stats c') = hits (stats c) /\
     misses (stats c') = misses (stats c)) /\
  (forall key clk c,
     isMiss key clk c = false ->
     let c' := snd (get key clk c) in
     latencyRecorded clk c c' /\
     hits (stats c') = hits (stats c) + 1 /\
     misses (stats c') = misses (stats c)).
Proof.
  split.
  - intros key v ttl_arg clk c sz Hsz c'. subst c'.
    rewrite (set_Normal _ _ _ _ _ _ Hsz). unfold latencyRecorded. cbn.
    destruct (makeRoom_counters sz c) as (-> & -> & ->). repeat split.
  - intros key clk c. unfold isMiss.
    destruct (Map.get key (cache c)) as [entry|] eqn:Hget; [|discriminate].
    intros Hlive.
    rewrite (get_hit key clk c entry Hget Hlive).
    unfold latencyRecorded. cbn. repeat split.
Qed.

Lemma latency_is_running_mean_on_put_and_hit_witness :
  avgAccessTime (stats (snd (set "D" (JString "v") None (Sample.timed 8 5) Sample.abc)))
    = runningMean (Num.of_Z 4) 2 (Num.of_Z 8) /\
  avgAccessTime (stats (snd (get "A" (Sample.timed 8 5) Sample.abc)))
    = runningMean (Num.of_Z 4) 3 (Num.of_Z 8).
Proof.
  destruct latency_is_running_mean_on_put_and_hit as (Hput & Hhit).
  destruct (Hput "D"%string (JString "v") None (Sample.timed 8 5) Sample.abc 6
              eq_refl) as (Hp & _).
  destruct (Hhit "A"%string (Sample.timed 8 5) Sample.abc eq_refl) as (Hh & _).
  split.
  - rewrite Hp. vm_compute. reflexivity.
  - rewrite Hh. vm_compute. reflexivity.
Defined.

(** The sentence of the specification on every [get] does not hold on a
    miss: at time 4000000 the entry of "A" (created at 1, ttl 3600 s) is
    expired; [get("A")] takes 8 ms, and [avgAccessTime] is still 4 ms, not
    16/3 ms. *)
Lemma get_miss_skips_running_mean :
  isMiss "A" (Sample.timed 8 4000000) Sample.abc = true /\
  ~ getRecordsLatency "A" (Sample.timed 8 4000000) Sample.abc.
Proof.
  split; [reflexivity|].
  unfold getRecordsLatency, latencyRecorded. vm_compute. discriminate.
Qed.

(** C6 on the code.  [get("A")] on the sample cache at time 4000000, when
    the entry of "A" is expired, takes 8 ms: the call is counted, so that
    [n = hits + misses] is 3, but [avgAccessTime] is not updated by the
    running mean: it is still the old 4 ms, not [(4 * 2 + 8) / 3].  The
    same [get] at time 9, when the entry is live, and a [set] with the
    same clock do apply the formula. *)
Theorem expired_miss_skips_the_running_mean :
  let late := Sample.timed 8 4000000 in
  let c' := snd (get "A" late Sample.abc) in
  isMiss "A" late Sample.abc = true /\
  hits (stats c') + misses (stats c') = 3 /\
  avgAccessTime (stats c') = avgAccessTime (stats Sample.abc) /\
  avgAccessTime (stats c')
    <> runningMean (avgAccessTime (stats Sample.abc)) 3 (duration late) /\
  latencyRecorded (Sample.timed 8 9) Sample.abc
    (snd (get "A" (Sample.timed 8 9) Sample.abc)) /\
  latencyRecorded late Sample.abc
    (snd (set "D" (JString "v") None late Sample.abc)).
Proof.
  cbv zeta. repeat split; try (vm_compute; reflexivity);
    unfold latencyRecorded; vm_compute; discriminate.
Qed.

(** ** Failures *)

Lemma SerializeJSONProperty_throws v :
  forall e, JSON.SerializeJSONProperty v = Throw e -> e = TypeError.
Proof.
  induction v as [| | | | | |elements IH|properties IH] using JsValue_nested_ind;
    intros e; cbn [JSON.SerializeJSONProperty]; try discriminate.
  - intros H. now injection H as <-.
  - match goal with
    | |- match ?t with _ => _ end = _ -> _ => destruct t as [l|e0] eqn:E
    end; [discriminate|].
    intros H. injection H as <-. revert e0 E.
    induction IH as [|x r Hx _ IHr]; intros e0; [discriminate|].
    destruct (JSON.SerializeJSONProperty x) as [o|ex] eqn:Ex.
    + match goal with
      | |- match ?t with _ => _ end = _ -> _ => destruct t as [acc|er] eqn:Er
      end; [discriminate|].
      intros H. injection H as <-. now apply IHr.
    + intros H. injection H as <-. now apply Hx.
  - match goal with
    | |- match ?t with _ => _ end = _ -> _ => destruct t as [l|e0] eqn:E
    end; [discriminate|].
    intros H. injection H as <-. revert e0 E.
    induction IH as [|[k x] r Hx _ IHr]; intros e0; [discriminate|].
    cbn [snd] in Hx.
    destruct (JSON.SerializeJSONProperty x) as [o|ex] eqn:Ex.
    + match goal with
      | |- match ?t with _ => _ end = _ -> _ => destruct t as [acc|er] eqn:Er
      end; [discriminate|].
      intros H. injection H as <-. now apply IHr.
    + intros H. injection H as <-. now apply Hx.
Qed.

Lemma calculateSize_cases v :
  (serializable v = true /\ exists sz, calculateSize v = Normal sz /\ 0 <= sz) \/
  (serializable v = false /\ calculateSize v = Throw TypeError).
Proof.
  unfold serializable, calculateSize, JSON.stringify.
  destruct (JSON.SerializeJSONProperty v) as [[str|]|e] eqn:E.
  - left. split; [reflexivity|]. eexists. split; [reflexivity|]. lia.
  - now right.
  - right. now rewrite (SerializeJSONProperty_throws v e E).
Qed.

(** C7, as the code has it.  [set] raises exactly when [JSON.stringify]
    gives no string for the value (it returns [undefined], or throws); the
    error is then a TypeError, raised before the state is touched and
    before any event is sent.  [get], [delete], [clear] and [getStats]
    return on every input. *)
Theorem put_fails_with_TypeError_only_when_unserializable key v ttl_arg clk c :
  (serializable v = false -> set key v ttl_arg clk c = (Throw TypeError, c)) /\
  (serializable v = true -> fst (set key v ttl_arg clk c) = Normal tt).
Proof.
  destruct (calculateSize_cases v) as [(Hs & sz & Hsz & _)|(Hs & Hsz)];
    rewrite Hs; split; try discriminate; intros _.
  - now rewrite (set_Normal _ _ _ _ _ _ Hsz).
  - now apply set_Throw.
Qed.

Lemma put_fails_with_TypeError_only_when_unserializable_witness :
  set "k" (JArray [JNumber 1; JBigInt 2]) None (Sample.at_time 5) Sample.abc
    = (Throw TypeError, Sample.abc) /\
  set "k" JUndefined None (Sample.at_time 5) Sample.abc
    = (Throw TypeError, Sample.abc) /\
  fst (set "k" (JArray [JNumber 1; JUndefined]) None (Sample.at_time 5) Sample.abc)
    = Normal tt.
Proof.
  split; [|split].
  - apply (put_fails_with_TypeError_only_when_unserializable
             "k" (JArray [JNumber 1; JBigInt 2])). reflexivity.
  - apply (put_fails_with_TypeError_only_when_unserializable "k" JUndefined).
    reflexivity.
  - apply (put_fails_with_TypeError_only_when_unserializable
             "k" (JArray [JNumber 1; JUndefined])). reflexivity.
Defined.

(** C7, as the specification words it, fails: [undefined] cannot be
    serialized, and [set] raises a TypeError for it, not an error named
    SerializationError. *)
Lemma unserializable_is_not_SerializationError :
  ~ unserializableAsSpecified "k" JUndefined None (Sample.at_time 5) Sample.fresh.
Proof.
  unfold unserializableAsSpecified. intros H.
  specialize (H eq_refl). revert H. vm_compute. discriminate.
Qed.

(** ** The first [set] and the average *)

Lemma div_by_zero_not_finite x : Num.isFinite (Num.div x (Num.of_Z 0)) = false.
Proof. now destruct x. Qed.

(** C10.  When [hits + misses] is 0, a [set] that returns divides by zero
    in the latency update: [avgAccessTime] becomes
    [(avgAccessTime * -1 + d) / 0], which is not finite, hence not the
    finite duration [d]; from an [avgAccessTime] of 0 (a new cache, or one
    just cleared) it is [Infinity] for a positive duration and [NaN] for a
    duration of 0. *)
Theorem put_without_requests_divides_by_zero key v ttl_arg clk c sz :
  hits (stats c) + misses (stats c) = 0 ->
  calculateSize v = Normal sz ->
  let avg' := avgAccessTime (stats (snd (set key v ttl_arg clk c))) in
  avg' = Num.div
           (Num.add (Num.mul (avgAccessTime (stats c)) (Num.of_Z (-1))) (duration clk))
           (Num.of_Z 0) /\
  Num.isFinite avg' = false /\
  (Num.isFinite (duration clk) = true -> avg' <> duration clk) /\
  (avgAccessTime (stats c) = Num.zero ->
   (forall m e, duration clk = S754_finite false m e -> avg' = Num.Infinity) /\
   (duration clk = Num.zero -> avg' = Num.NaN)).
Proof.
  intros Hzero Hsz avg'.
  assert (Havg : avg' =
    Num.div
      (Num.add (Num.mul (avgAccessTime (stats c)) (Num.of_Z (-1))) (duration clk))
      (Num.of_Z 0)).
  { subst avg'. rewrite (set_Normal _ _ _ _ _ _ Hsz). cbn.
    destruct (makeRoom_counters sz c) as (-> & -> & ->).
    unfold runningMean. now rewrite Hzero. }
  split; [exact Havg|]. split; [|split].
  - rewrite Havg. apply div_by_zero_not_finite.
  - intros Hfin Heq. rewrite <- Heq, Havg in Hfin.
    now rewrite div_by_zero_not_finite in Hfin.
  - intros Hold. rewrite Havg, Hold. split.
    + intros m e ->. reflexivity.
    + intros ->. reflexivity.
Qed.

Lemma put_without_requests_divides_by_zero_witness :
  avgAccessTime (stats (snd (set "k" (JString "v") None (Sample.at_time 5) Sample.fresh)))
    = Num.Infinity /\
  avgAccessTime
    (stats (snd (set "k" (JString "v") None (Sample.instant 5) (clear Sample.abc))))
    = Num.NaN.
Proof.
  split.
  - destruct (put_without_requests_divides_by_zero
                "k" (JString "v") None (Sample.at_time 5) Sample.fresh 6
                eq_refl eq_refl) as (_ & _ & _ & Hnew).
    destruct (Hnew eq_refl) as (Hpos & _).
    apply (Hpos 4503599627370496%positive (-50)). reflexivity.
  - destruct (put_without_requests_divides_by_zero
                "k" (JString "v") None (Sample.instant 5) (clear Sample.abc) 6
                eq_refl eq_refl) as (_ & _ & _ & Hnew).
    destruct (Hnew eq_refl) as (_ & Hnul). apply Hnul. reflexivity.
Defined.

(** ** Accounting *)

Lemma set_accounting key v ttl_arg clk c sz :
  calculateSize v = Normal sz ->
  let c1 := makeRoom sz c in
  let c' := snd (set key v ttl_arg clk c) in
  totalEntries (stats c') = Z.of_nat (List.length (cache c')) /\
  memoryUsage (stats c') - liveSize (cache c') =
    memoryUsage (stats c1) - liveSize (cache c1) +
    match Map.get key (cache c1) with
    | Some old => size old
    | None => 0
    end.
Proof.
  intros Hsz c1 c'. subst c1 c'.
  rewrite (set_Normal _ _ _ _ _ _ Hsz). cbn.
  split; [reflexivity|].
  rewrite liveSize_set. cbn. lia.
Qed.

Lemma get_deleteAll_None key keys c :
  Map.get key (cache c) = None -> Map.get key (cache (deleteAll keys c)) = None.
Proof.
  revert c. induction keys as [|k r IH]; intros c Hnone; [exact Hnone|].
  rewrite deleteAll_cons. apply IH. rewrite cache_delete_eq.
  destruct (String.eqb_spec key k) as [->|Hne].
  - apply MapFacts.get_delete_same.
  - now rewrite MapFacts.get_delete_other.
Qed.

Lemma get_makeRoom_None key requiredSize c :
  Map.wf (cache c) ->
  Map.get key (cache c) = None ->
  Map.get key (cache (makeRoom requiredSize c)) = None.
Proof.
  intros Hwf Hnone. unfold makeRoom.
  destruct (memoryUsage (stats c) + requiredSize >? maxMemory (config c));
    [|exact Hnone].
  destruct (enforceMemoryLimit_evictsPrefix requiredSize c Hwf) as (n & _ & -> & _).
  now apply get_deleteAll_None.
Qed.

(** Adding a key that is not in the map keeps the statistics exact. *)
Lemma accounted_set_new_key key v ttl_arg clk c sz :
  Map.wf (cache c) -> accounted c ->
  calculateSize v = Normal sz ->
  Map.get key (cache c) = None ->
  accounted (snd (set key v ttl_arg clk c)).
Proof.
  intros Hwf Hacc Hsz Hnone.
  destruct (set_accounting key v ttl_arg clk c sz Hsz) as (Hn & Hm).
  destruct (makeRoom_keeps sz c Hwf) as (_ & _ & _ & _ & _ & _ & Hacc1).
  destruct (Hacc1 Hacc) as (Hm1 & _).
  rewrite (get_makeRoom_None key sz c Hwf Hnone) in Hm.
  split; [lia|exact Hn].
Qed.

(** X23.  Overwriting a key without memory pressure leaves [memoryUsage]
    above the live sizes by the size of the entry that was replaced. *)
Lemma overwrite_drifts key v ttl_arg clk c sz old :
  accounted c ->
  calculateSize v = Normal sz ->
  memoryUsage (stats c) + sz <= maxMemory (config c) ->
  Map.get key (cache c) = Some old ->
  memoryUsage (stats (snd (set key v ttl_arg clk c))) =
    liveSize (cache (snd (set key v ttl_arg clk c))) + size old.
Proof.
  intros (Hm & _) Hsz Hfits Hold.
  destruct (set_accounting key v ttl_arg clk c sz Hsz) as (_ & Hd).
  unfold makeRoom in Hd.
  destruct (Z.gtb_spec (memoryUsage (stats c) + sz) (maxMemory (config c)));
    [lia|].
  rewrite Hold in Hd. lia.
Qed.

(** X22.  While the statistics are exact, a [set] ends within the ceiling
    unless the new entry alone is above it. *)
Lemma set_within_ceiling_when_accounted key v ttl_arg clk c sz :
  Map.wf (cache c) -> accounted c ->
  calculateSize v = Normal sz ->
  let c' := snd (set key v ttl_arg clk c) in
  memoryUsage (stats c') <= maxMemory (config c') \/ sz > maxMemory (config c').
Proof.
  intros Hwf Hacc Hsz c'. subst c'.
  rewrite (set_Normal _ _ _ _ _ _ Hsz). cbn.
  destruct (makeRoom_keeps sz c Hwf) as (Hcfg & _ & _ & _ & _ & _ & Hacc1).
  rewrite Hcfg. specialize (Hacc1 Hacc). revert Hacc1. unfold makeRoom.
  destruct (Z.gtb_spec (memoryUsage (stats c) + sz) (maxMemory (config c)))
    as [Hover|Hfits]; intros (Hm1 & _); [|left; lia].
  destruct (enforceMemoryLimit_evictsPrefix sz c Hwf) as (n & _ & _ & _ & Hstop).
  destruct Hstop as [Hstop|Hstop]; [left; lia|].
  rewrite Hstop in Hm1. cbn in Hm1. lia.
Qed.

(** X21.  Sequences of [set] and [delete] that never overwrite a live key
    keep the statistics exact: [memoryUsage] is the sum of the live sizes
    and [totalEntries] the number of entries. *)
Lemma accounted_after_run ops c :
  Map.wf (cache c) -> accounted c -> neverOverwrites ops c ->
  accounted (run ops c).
Proof.
  revert c. induction ops as [|o rest IH]; intros c Hwf Hacc Hnever; [exact Hacc|].
  destruct Hnever as (Hnow & Hlater).
  apply IH; [| |exact Hlater].
  - destruct o; [now apply wf_after_set|now apply wf_cache_delete].
  - destruct o as [key v ttl_arg clk|key]; cbn [step].
    + destruct (calculateSize v) as [sz|e] eqn:Hsz.
      * now apply accounted_set_new_key with (sz := sz).
      * now rewrite (set_Throw _ _ _ _ _ _ Hsz).
    + now apply accounted_delete.
Qed.

(** C1 on the code.  [set("a","v")] twice on a new cache: one live entry
    of 6 bytes, and [memoryUsage] is 12; the size of the entry that was
    overwritten has not been subtracted. *)
Theorem overwrite_overcounts_memoryUsage :
  let c := run [Put "a" (JString "v") None (Sample.at_time 1000);
                Put "a" (JString "v") None (Sample.at_time 2000)] Sample.fresh in
  Map.keys (cache c) = ["a"%string] /\
  liveSize (cache c) = 6 /\
  totalEntries (stats c) = 1 /\
  memoryUsage (stats c) = 12 /\
  ~ accounted c.
Proof.
  cbv zeta. repeat split; try (vm_compute; reflexivity).
  intros (Hm & _). revert Hm. vm_compute. discriminate.
Qed.

(** C2 on the code.  With [maxMemory] 12, [set("a","v")] twice and then
    [set("c","vvv")]: the last value takes 10 bytes, every other entry has
    been evicted, and [memoryUsage] is 16. *)
Theorem drift_breaks_the_ceiling :
  let c := run [Put "a" (JString "v") None (Sample.at_time 1000);
                Put "a" (JString "v") None (Sample.at_time 2000);
                Put "c" (JString "vvv") None (Sample.at_time 3000)]
             (Sample.withMaxMemory 12) in
  calculateSize (JString "vvv") = Normal 10 /\
  maxMemory (config c) = 12 /\
  Map.keys (cache c) = ["c"%string] /\
  liveSize (cache c) = 10 /\
  memoryUsage (stats c) = 16.
Proof. cbv zeta. repeat split; vm_compute; reflexivity. Qed.

(* ================================================================== *)
(** * Properties of the rest of the class *)
(* ================================================================== *)

(** ** The sweep of expired entries *)

Lemma delete_app {V : Type} k (m1 m2 : Map.t V) :
  Map.delete k (m1 ++ m2) = Map.delete k m1 ++ Map.delete k m2.
Proof.
  induction m1 as [|[k0 v0] r IH]; simpl; [reflexivity|].
  destruct (String.eqb k k0); simpl; now rewrite IH.
Qed.

Lemma delete_middle {V : Type} k (v : V) (pre rest : Map.t V) :
  Map.wf (pre ++ (k, v) :: rest) ->
  Map.delete k (pre ++ (k, v) :: rest) = pre ++ rest.
Proof.
  unfold Map.wf, Map.keys. rewrite map_app. cbn [map fst]. intros Hnd.
  pose proof (NoDup_remove_2 _ _ _ Hnd) as Hnotin.
  rewrite delete_app. cbn [Map.delete]. rewrite String.eqb_refl.
  rewrite !MapFacts.delete_absent; [reflexivity| |];
    apply MapFacts.get_None_keys; unfold Map.keys; intros Hin;
    apply Hnotin, in_or_app; [now right|now left].
Qed.

Lemma isExpired_config now entry c c' :
  config c' = config c -> isExpired now entry c' = isExpired now entry c.
Proof. unfold isExpired. now intros ->. Qed.

Lemma freshFrom_config now c c' i entries :
  config c' = config c -> freshFrom now c' i entries = freshFrom now c i entries.
Proof.
  intros Hcfg. revert i. induction entries as [|p r IH]; intros i; [reflexivity|].
  cbn [freshFrom]. rewrite (isExpired_config _ _ _ _ Hcfg), IH. reflexivity.
Qed.

Lemma staleKeysFrom_config now c c' i entries :
  config c' = config c ->
  staleKeysFrom now c' i entries = staleKeysFrom now c i entries.
Proof.
  intros Hcfg. revert i. induction entries as [|p r IH]; intros i; [reflexivity|].
  cbn [staleKeysFrom]. rewrite (isExpired_config _ _ _ _ Hcfg), IH. reflexivity.
Qed.

Lemma sse_delete_found key entry c :
  Map.get key (cache c) = Some entry ->
  sse (snd (delete key c)) = sse c ++ [cache_delete key].
Proof. unfold delete. intros ->. reflexivity. Qed.

(** Whatever [delete] keeps, the loops built on it keep. *)
Lemma evictStale_loop_keeps (P : CacheManager -> Prop) now i entries c :
  (forall key c0, P c0 -> P (snd (delete key c0))) ->
  P c -> P (evictStale_loop now i entries c).
Proof.
  intros Hdel. revert i c.
  induction entries as [|[k e] rest IH]; intros i c Hc; [exact Hc|].
  cbn [evictStale_loop]. apply IH.
  destruct (isExpired (now i) e c); [now apply Hdel|exact Hc].
Qed.

Lemma enforceMemoryLimit_loop_keeps (P : CacheManager -> Prop) requiredSize entries c :
  (forall key c0, P c0 -> P (snd (delete key c0))) ->
  P c -> P (enforceMemoryLimit_loop requiredSize entries c).
Proof.
  intros Hdel. revert c.
  induction entries as [|[k e] rest IH]; intros c Hc; [exact Hc|].
  cbn [enforceMemoryLimit_loop].
  destruct (memoryUsage (stats c) + requiredSize >? maxMemory (config c));
    [|exact Hc].
  now apply IH, Hdel.
Qed.

Lemma makeRoom_keeps_whatever_delete_keeps (P : CacheManager -> Prop) requiredSize c :
  (forall key c0, P c0 -> P (snd (delete key c0))) ->
  P c -> P (makeRoom requiredSize c).
Proof.
  intros Hdel Hc. unfold makeRoom, enforceMemoryLimit.
  destruct (memoryUsage (stats c) + requiredSize >? maxMemory (config c));
    [|exact Hc].
  now apply enforceMemoryLimit_loop_keeps.
Qed.

Lemma evictStale_loop_result now i pre entries c :
  cache c = pre ++ entries -> Map.wf (cache c) ->
  cache (evictStale_loop now i entries c) = pre ++ freshFrom now c i entries /\
  sse (evictStale_loop now i entries c)
    = sse c ++ map cache_delete (staleKeysFrom now c i entries).
Proof.
  revert i pre c.
  induction entries as [|[k e] rest IH]; intros i pre c Hcache Hwf.
  - cbn. rewrite !app_nil_r. rewrite app_nil_r in Hcache. now split.
  - cbn [evictStale_loop freshFrom staleKeysFrom fst snd].
    destruct (isExpired (now i) e c) eqn:Hexp.
    + assert (Hget : Map.get k (cache c) = Some e).
      { apply MapFacts.In_get; [exact Hwf|].
        rewrite Hcache. apply in_or_app. right. now left. }
      destruct (IH (S i) pre (snd (delete k c))) as (Hc & Hs).
      * rewrite cache_delete_eq, Hcache. apply delete_middle.
        now rewrite <- Hcache.
      * now apply wf_cache_delete.
      * rewrite Hc, Hs, (sse_delete_found k e c Hget).
        rewrite (freshFrom_config now c _ _ _ (config_delete k c)).
        rewrite (staleKeysFrom_config now c _ _ _ (config_delete k c)).
        cbn [map]. now rewrite <- app_assoc.
    + destruct (IH (S i) (pre ++ [(k, e)]) c) as (Hc & Hs).
      * rewrite Hcache, <- app_assoc. reflexivity.
      * exact Hwf.
      * rewrite Hc, Hs, <- app_assoc. now split.
Qed.

Lemma freshFrom_constant t c i entries :
  freshFrom (fun _ => t) c i entries
  = filter (fun p => negb (isExpired t (snd p) c)) entries.
Proof.
  revert i. induction entries as [|p r IH]; intros i; [reflexivity|].
  cbn [freshFrom filter]. rewrite IH. now destruct (isExpired t (snd p) c).
Qed.

Lemma freshFrom_ext now now' c i entries :
  (forall j, now j = now' j) ->
  freshFrom now c i entries = freshFrom now' c i entries.
Proof.
  intros Hext. revert i. induction entries as [|p r IH]; intros i; [reflexivity|].
  cbn [freshFrom]. now rewrite Hext, IH.
Qed.

(** X1.  A sweep over a map with unique keys keeps exactly the entries
    that were not expired when they were visited, in their order, and
    sends one [cache-delete] event per removed key, in the order of the
    map; when all readings of the clock are the same time, what remains is
    the map filtered by [isExpired].  The counters and the configuration
    are not touched. *)
Theorem evictStale_removes_exactly_the_expired now c :
  Map.wf (cache c) ->
  let c' := evictStale now c in
  cache c' = freshFrom now c 0 (cache c) /\
  sse c' = sse c ++ map cache_delete (staleKeysFrom now c 0 (cache c)) /\
  (forall t, (forall i, now i = t) ->
     cache c' = filter (fun p => negb (isExpired t (snd p) c)) (cache c)) /\
  hits (stats c') = hits (stats c) /\
  misses (stats c') = misses (stats c) /\
  avgAccessTime (stats c') = avgAccessTime (stats c) /\
  config c' = config c.
Proof.
  intros Hwf c'. subst c'. unfold evictStale, Map.entries.
  destruct (evictStale_loop_result now 0 [] (cache c) c eq_refl Hwf) as (Hc & Hs).
  cbn [app] in Hc.
  split; [exact Hc|]. split; [exact Hs|]. split.
  - intros t Ht. rewrite Hc, (freshFrom_ext now (fun _ => t)) by exact Ht.
    apply freshFrom_constant.
  - repeat split.
    + apply (evictStale_loop_keeps (fun c0 => hits (stats c0) = hits (stats c)));
        [|reflexivity].
      intros key c0 H. now destruct (counters_delete key c0) as (-> & _).
    + apply (evictStale_loop_keeps (fun c0 => misses (stats c0) = misses (stats c)));
        [|reflexivity].
      intros key c0 H. now destruct (counters_delete key c0) as (_ & -> & _).
    + apply (evictStale_loop_keeps
               (fun c0 => avgAccessTime (stats c0) = avgAccessTime (stats c)));
        [|reflexivity].
      intros key c0 H. now destruct (counters_delete key c0) as (_ & _ & _ & ->).
    + apply (evictStale_loop_keeps (fun c0 => config c0 = config c));
        [|reflexivity].
      intros key c0 H. now rewrite config_delete.
Qed.

Lemma evictStale_removes_exactly_the_expired_witness :
  Map.keys (cache (evictStale (Scenario.always 3600001) Sample.abc))
    = ["A"; "B"]%string /\
  sse (evictStale (Scenario.always 3600001) Sample.abc)
    = sse Sample.abc ++ [cache_delete "C"].
Proof.
  destruct (evictStale_removes_exactly_the_expired
              (Scenario.always 3600001) Sample.abc abc_wf) as (Hc & Hs & _).
  split; [rewrite Hc|rewrite Hs]; vm_compute; reflexivity.
Defined.

Lemma drift_delete key c :
  Map.wf (cache c) ->
  memoryUsage (stats (snd (delete key c))) - liveSize (cache (snd (delete key c)))
  = memoryUsage (stats c) - liveSize (cache c).
Proof.
  intros Hwf. unfold delete.
  destruct (Map.get key (cache c)) as [entry|] eqn:E; [|reflexivity].
  cbn. rewrite (liveSize_delete key entry); auto. lia.
Qed.

(** X2.  A sweep lowers [memoryUsage] by exactly the sizes of the entries
    it removes, and it keeps exact statistics exact. *)
Theorem evictStale_accounting now c :
  Map.wf (cache c) ->
  let c' := evictStale now c in
  memoryUsage (stats c')
    = memoryUsage (stats c) - (liveSize (cache c) - liveSize (cache c')) /\
  (accounted c -> accounted c').
Proof.
  intros Hwf c'. subst c'. unfold evictStale. split.
  - assert (H : Map.wf (cache (evictStale_loop now 0 (Map.entries (cache c)) c)) /\
                memoryUsage (stats (evictStale_loop now 0 (Map.entries (cache c)) c))
                - liveSize (cache (evictStale_loop now 0 (Map.entries (cache c)) c))
                = memoryUsage (stats c) - liveSize (cache c)).
    { apply (evictStale_loop_keeps
               (fun c0 => Map.wf (cache c0) /\
                          memoryUsage (stats c0) - liveSize (cache c0)
                          = memoryUsage (stats c) - liveSize (cache c)));
        [|now split].
      intros key c0 (Hwf0 & Hd). split; [now apply wf_cache_delete|].
      now rewrite drift_delete. }
    lia.
  - intros Hacc.
    assert (H : Map.wf (cache (evictStale_loop now 0 (Map.entries (cache c)) c)) /\
                accounted (evictStale_loop now 0 (Map.entries (cache c)) c)).
    { apply (evictStale_loop_keeps
               (fun c0 => Map.wf (cache c0) /\ accounted c0)); [|now split].
      intros key c0 (Hwf0 & Hacc0).
      split; [now apply wf_cache_delete|now apply accounted_delete]. }
    apply H.
Qed.

Lemma evictStale_accounting_witness :
  memoryUsage (stats (evictStale (Scenario.always 3600002) Sample.abc)) = 6 /\
  accounted (evictStale (Scenario.always 3600002) Sample.abc).
Proof.
  destruct (evictStale_accounting (Scenario.always 3600002) Sample.abc abc_wf)
    as (Hm & Hacc).
  split.
  - rewrite Hm. vm_compute. reflexivity.
  - apply Hacc. split; vm_compute; reflexivity.
Defined.

Lemma evictStale_loop_nothing_expired t i entries c :
  (forall p, In p entries -> isExpired t (snd p) c = false) ->
  evictStale_loop (fun _ => t) i entries c = c.
Proof.
  revert i. induction entries as [|[k e] rest IH]; intros i Hfresh; [reflexivity|].
  cbn [evictStale_loop]. cbv beta.
  pose proof (Hfresh (k, e) (or_introl eq_refl)) as Hke. cbn [snd] in Hke.
  rewrite Hke.
  apply IH. intros p Hin. apply Hfresh. now right.
Qed.

Lemma evictStale_constant t c :
  Map.wf (cache c) ->
  cache (evictStale (fun _ => t) c)
    = filter (fun p => negb (isExpired t (snd p) c)) (cache c) /\
  config (evictStale (fun _ => t) c) = config c.
Proof.
  intros Hwf. unfold evictStale, Map.entries. split.
  - destruct (evictStale_loop_result (fun _ => t) 0 [] (cache c) c eq_refl Hwf)
      as (Hc & _).
    cbn [app] in Hc. rewrite Hc. apply freshFrom_constant.
  - apply (evictStale_loop_keeps (fun c0 => config c0 = config c)); [|reflexivity].
    intros key c0 H. now rewrite config_delete.
Qed.

(** X3.  A second sweep at the same time changes nothing: no entry is
    removed and no event is sent. *)
Theorem evictStale_twice_is_once t c :
  Map.wf (cache c) ->
  evictStale (fun _ => t) (evictStale (fun _ => t) c) = evictStale (fun _ => t) c.
Proof.
  intros Hwf.
  destruct (evictStale_constant t c Hwf) as (Hc & Hcfg).
  unfold evictStale at 1. unfold Map.entries.
  apply evictStale_loop_nothing_expired.
  intros p Hin. rewrite Hc in Hin. apply filter_In in Hin.
  destruct Hin as (_ & Hfresh).
  rewrite (isExpired_config _ _ _ _ Hcfg).
  now apply negb_true_iff in Hfresh.
Qed.

Lemma evictStale_twice_is_once_witness :
  evictStale (fun _ => 3600001) (evictStale (fun _ => 3600001) Sample.abc)
  = evictStale (fun _ => 3600001) Sample.abc.
Proof. apply (evictStale_twice_is_once 3600001 Sample.abc abc_wf). Defined.

(** ** How [set], [get] and [delete] compose *)

Lemma config_makeRoom requiredSize c : config (makeRoom requiredSize c) = config c.
Proof.
  apply (makeRoom_keeps_whatever_delete_keeps (fun c0 => config c0 = config c));
    [|reflexivity].
  intros key c0 H. now rewrite config_delete.
Qed.

(** X4.  After a [set] that returns, a [get] of the same key returns the
    value that was stored, and counts a hit, as long as it reads the clock
    no later than [created + ttl * 1000]; a [get] that reads it later
    returns [undefined], removes the entry and counts a miss.  The ttl is
    the one given to [set], also when it is 0 or negative, and the default
    one only when none was given. *)
Theorem get_after_set key v ttl_arg clk clk' c sz :
  calculateSize v = Normal sz ->
  let c1 := snd (set key v ttl_arg clk c) in
  let deadline := dateNow1 clk + nullish ttl_arg (defaultTTL (config c)) * 1000 in
  (dateNow1 clk' <= deadline ->
   fst (get key clk' c1) = v /\
   hits (stats (snd (get key clk' c1))) = hits (stats c) + 1 /\
   misses (stats (snd (get key clk' c1))) = misses (stats c)) /\
  (dateNow1 clk' > deadline ->
   fst (get key clk' c1) = JUndefined /\
   Map.get key (cache (snd (get key clk' c1))) = None /\
   hits (stats (snd (get key clk' c1))) = hits (stats c) /\
   misses (stats (snd (get key clk' c1))) = misses (stats c) + 1).
Proof.
  intros Hsz c1 deadline. subst c1 deadline.
  rewrite (set_Normal _ _ _ _ _ _ Hsz). cbn [snd].
  destruct (makeRoom_counters sz c) as (Hh & Hm & _).
  match goal with
  | |- context [get key clk' ?s] =>
      assert (Hget : Map.get key (cache s)
                     = Some (newEntry v ttl_arg clk (makeRoom sz c) sz))
        by (cbn [cache]; apply MapFacts.get_set_same);
      assert (Hexp : isExpired (dateNow1 clk')
                       (newEntry v ttl_arg clk (makeRoom sz c) sz) s
                     = (dateNow1 clk' >?
                        dateNow1 clk + nullish ttl_arg (defaultTTL (config c)) * 1000))
        by (unfold isExpired; cbn; now rewrite config_makeRoom)
  end.
  split; intros Hwhen.
  - match type of Hexp with
    | _ = (?a >? ?b) => destruct (Z.gtb_spec a b); [lia|]
    end.
    rewrite (get_hit _ _ _ _ Hget Hexp). cbn. rewrite Hh, Hm. repeat split.
  - match type of Hexp with
    | _ = (?a >? ?b) => destruct (Z.gtb_spec a b); [|lia]
    end.
    rewrite (get_expired _ _ _ _ Hget Hexp). unfold delete. rewrite Hget.
    cbn. rewrite Hh, Hm. split; [reflexivity|].
    split; [apply MapFacts.get_delete_same|]. now split.
Qed.

Lemma get_after_set_witness :
  let c1 := snd (set "D" (JArray [JNumber 1; JNull]) (Some 0) (Sample.at_time 9)
                   Sample.abc) in
  fst (get "D" (Sample.at_time 9) c1) = JArray [JNumber 1; JNull] /\
  fst (get "D" (Sample.at_time 10) c1) = JUndefined.
Proof.
  destruct (get_after_set "D" (JArray [JNumber 1; JNull]) (Some 0)
              (Sample.at_time 9) (Sample.at_time 9) Sample.abc 16 eq_refl)
    as (Hin & _).
  destruct (get_after_set "D" (JArray [JNumber 1; JNull]) (Some 0)
              (Sample.at_time 9) (Sample.at_time 10) Sample.abc 16 eq_refl)
    as (_ & Hout).
  split.
  - apply Hin. vm_compute. discriminate.
  - apply Hout. vm_compute. reflexivity.
Defined.

(** X5.  A [get] that hits returns the value of the entry and changes
    nothing but the [lastAccessed] of that entry: its value, [created],
    [ttl] and [size], the order of the keys, every other entry,
    [memoryUsage], [totalEntries] and the events are as before. *)
Theorem get_hit_touches_only_lastAccessed key clk c :
  isMiss key clk c = false ->
  exists entry,
    Map.get key (cache c) = Some entry /\
    fst (get key clk c) = value entry /\
    Map.get key (cache (snd (get key clk c)))
      = Some {| value := value entry; created := created entry;
                lastAccessed := dateNow2 clk;
                ttl := ttl entry; size := size entry |} /\
    Map.keys (cache (snd (get key clk c))) = Map.keys (cache c) /\
    (forall k, k <> key ->
       Map.get k (cache (snd (get key clk c))) = Map.get k (cache c)) /\
    liveSize (cache (snd (get key clk c))) = liveSize (cache c) /\
    memoryUsage (stats (snd (get key clk c))) = memoryUsage (stats c) /\
    totalEntries (stats (snd (get key clk c))) = totalEntries (stats c) /\
    sse (snd (get key clk c)) = sse c.
Proof.
  unfold isMiss.
  destruct (Map.get key (cache c)) as [entry|] eqn:Hget; [|discriminate].
  intros Hfresh. exists entry. split; [reflexivity|].
  rewrite (get_hit key clk c entry Hget Hfresh).
  cbn [fst snd cache stats sse memoryUsage totalEntries updateAccessTime
       updateHitRate incrHits with_cache with_stats].
  split; [reflexivity|]. split; [apply MapFacts.get_set_same|].
  split; [now rewrite MapFacts.keys_set, Hget|].
  split; [intros k Hne; now apply MapFacts.get_set_other|].
  split; [|now repeat split].
  rewrite liveSize_set, Hget. cbn. lia.
Qed.

Lemma get_hit_touches_only_lastAccessed_witness :
  cache (snd (get "A" (Sample.at_time 9) Sample.abc))
  = [("C", Sample.entryAt 0 3); ("A", Sample.entryAt 1 9);
     ("B", Sample.entryAt 2 2)]%string.
Proof.
  destruct (get_hit_touches_only_lastAccessed "A" (Sample.at_time 9) Sample.abc
              eq_refl) as (entry & _ & _ & _ & _).
  vm_compute. reflexivity.
Defined.

(** X6.  Once a key has been deleted, a [get] of it returns [undefined]
    and counts a miss, and a second [delete] returns false and leaves the
    state alone. *)
Theorem deleted_key_is_gone key clk c :
  let c1 := snd (delete key c) in
  fst (get key clk c1) = JUndefined /\
  misses (stats (snd (get key clk c1))) = misses (stats c) + 1 /\
  delete key c1 = (false, c1).
Proof.
  intros c1.
  assert (Hnone : Map.get key (cache c1) = None).
  { subst c1. rewrite cache_delete_eq. apply MapFacts.get_delete_same. }
  rewrite (get_absent key clk c1 Hnone). cbn.
  split; [reflexivity|]. split.
  - subst c1. now destruct (counters_delete key c) as (_ & -> & _).
  - unfold delete. now rewrite Hnone.
Qed.

(** X7.  A [set] never changes the entry of another key: without memory
    pressure every other key reads as before, and under pressure another
    key either reads as before or has been evicted. *)
Theorem set_leaves_other_entries key v ttl_arg clk c sz k :
  calculateSize v = Normal sz ->
  k <> key ->
  let c' := snd (set key v ttl_arg clk c) in
  (memoryUsage (stats c) + sz <= maxMemory (config c) ->
   Map.get k (cache c') = Map.get k (cache c)) /\
  (forall e, Map.get k (cache c') = Some e -> Map.get k (cache c) = Some e).
Proof.
  intros Hsz Hne c'. subst c'.
  rewrite (set_Normal _ _ _ _ _ _ Hsz). cbn [snd cache].
  rewrite (MapFacts.get_set_other _ _ _ _ Hne). split.
  - intros Hfits. unfold makeRoom.
    now destruct (Z.gtb_spec (memoryUsage (stats c) + sz) (maxMemory (config c)));
      [lia|].
  - apply (makeRoom_keeps_whatever_delete_keeps
             (fun c0 => forall e, Map.get k (cache c0) = Some e ->
                                  Map.get k (cache c) = Some e)); [|auto].
    intros key0 c0 H e. rewrite cache_delete_eq.
    destruct (String.eqb_spec k key0) as [->|Hne0].
    + now rewrite MapFacts.get_delete_same.
    + rewrite (MapFacts.get_delete_other _ _ _ Hne0). apply H.
Qed.

Lemma set_leaves_other_entries_witness :
  Map.get "B" (cache (snd (set "D" (JString "v") None (Sample.at_time 4) Sample.abc)))
  = Some (Sample.entryAt 2 2).
Proof.
  destruct (set_leaves_other_entries "D" (JString "v") None (Sample.at_time 4)
              Sample.abc 6 "B" eq_refl) as (_ & Hkept).
  - discriminate.
  - vm_compute. reflexivity.
Defined.

(** ** What every reachable state satisfies *)

Lemma In_delete {V : Type} (p : string * V) k (m : Map.t V) :
  In p (Map.delete k m) -> In p m.
Proof.
  induction m as [|[k0 v0] r IH]; simpl; [tauto|].
  destruct (String.eqb k k0); simpl; intuition.
Qed.

Lemma In_set {V : Type} (p : string * V) k v (m : Map.t V) :
  In p (Map.set k v m) -> p = (k, v) \/ In p m.
Proof.
  induction m as [|[k0 v0] r IH]; simpl.
  - intuition.
  - destruct (String.eqb k k0); simpl; intuition.
Qed.

Lemma calculateSize_even_positive v sz :
  calculateSize v = Normal sz -> 0 <= sz /\ Z.even sz = true.
Proof.
  unfold calculateSize.
  destruct (JSON.stringify v) as [[str|]|e]; try discriminate.
  intros H. injection H as <-. split; [lia|].
  rewrite Z.even_mul. apply orb_true_r.
Qed.

Lemma liveSize_nonneg m : sizedByValue m -> 0 <= liveSize m.
Proof.
  induction m as [|[k e] r IH]; intros Hs; simpl; [lia|].
  assert (0 <= size e).
  { eapply calculateSize_even_positive, (Hs k e). now left. }
  assert (0 <= liveSize r).
  { apply IH. intros k' e' Hin. apply (Hs k' e'). now right. }
  lia.
Qed.

Lemma consistent_delete key c : consistent c -> consistent (snd (delete key c)).
Proof.
  intros (Hwf & Hn & Hs & Hd & Hr).
  pose proof (drift_delete key c Hwf) as Hdrift.
  destruct (counters_delete key c) as (D1 & D2 & D3 & _).
  split; [now apply wf_cache_delete|]. split; [|split; [|split]].
  - unfold delete. destruct (Map.get key (cache c)); [reflexivity|exact Hn].
  - intros k e. rewrite cache_delete_eq. intros Hin. apply (Hs k e).
    eapply In_delete, Hin.
  - lia.
  - now rewrite D1, D2, D3.
Qed.

Lemma consistent_set key v ttl_arg clk c :
  consistent c -> consistent (snd (set key v ttl_arg clk c)).
Proof.
  intros Hc. destruct (calculateSize v) as [sz|e] eqn:Hsz;
    [|now rewrite (set_Throw _ _ _ _ _ _ Hsz)].
  pose proof (makeRoom_keeps_whatever_delete_keeps consistent sz c
                consistent_delete Hc) as (Hwf1 & Hn1 & Hs1 & Hd1 & Hr1).
  destruct (set_accounting key v ttl_arg clk c sz Hsz) as (Hn & Hdrift).
  destruct (makeRoom_counters sz c) as (Hh & Hm & _).
  revert Hn Hdrift. rewrite (set_Normal _ _ _ _ _ _ Hsz). unfold consistent.
  cbn [snd cache stats totalEntries memoryUsage hits misses hitRate].
  intros Hn Hdrift.
  split; [now apply MapFacts.wf_set|]. split; [exact Hn|]. split; [|split].
  - intros k e Hin. apply In_set in Hin. destruct Hin as [E|Hin].
    + injection E as -> ->. exact Hsz.
    + now apply (Hs1 k e).
  - assert (0 <= match Map.get key (cache (makeRoom sz c)) with
                 | Some old => size old
                 | None => 0
                 end).
    { destruct (Map.get key (cache (makeRoom sz c))) as [old|] eqn:E; [|lia].
      eapply calculateSize_even_positive, (Hs1 key old), MapFacts.get_In, E. }
    lia.
  - exact Hr1.
Qed.

Lemma hitRate_updateHitRate c :
  hitRate (stats (updateHitRate c))
  = hitRateOf (hits (stats (updateHitRate c))) (misses (stats (updateHitRate c))).
Proof. reflexivity. Qed.

Lemma consistent_updateHitRate_after c c0 :
  Map.wf (cache c0) ->
  totalEntries (stats c0) = Z.of_nat (List.length (cache c0)) ->
  sizedByValue (cache c0) ->
  liveSize (cache c0) <= memoryUsage (stats c0) ->
  cache c = cache c0 ->
  totalEntries (stats c) = totalEntries (stats c0) ->
  memoryUsage (stats c) = memoryUsage (stats c0) ->
  consistent (updateHitRate c).
Proof.
  intros Hwf Hn Hs Hd Hc Ht Hm. unfold consistent. cbn.
  rewrite Hc, Ht, Hm. repeat split; auto.
Qed.

Lemma consistent_get key clk c : consistent c -> consistent (snd (get key clk c)).
Proof.
  intros Hc. unfold get.
  destruct (Map.get key (cache c)) as [entry|] eqn:Hget.
  - destruct (isExpired (dateNow1 clk) entry c).
    + destruct (consistent_delete key c Hc) as (Hwf & Hn & Hs & Hd & _).
      now apply (consistent_updateHitRate_after _ (snd (delete key c))).
    + destruct Hc as (Hwf & Hn & Hs & Hd & _).
      cbn [snd]. unfold consistent.
      cbn [cache stats updateAccessTime updateHitRate incrHits with_cache with_stats
           totalEntries memoryUsage hits misses hitRate].
      split; [now apply MapFacts.wf_set|]. split; [|split; [|split]].
      * now rewrite MapFacts.length_set, Hget.
      * intros k e Hin. apply In_set in Hin. destruct Hin as [E|Hin].
        -- injection E as -> ->. cbn. apply (Hs key entry), MapFacts.get_In, Hget.
        -- now apply (Hs k e).
      * rewrite liveSize_set, Hget. cbn. lia.
      * reflexivity.
  - destruct Hc as (Hwf & Hn & Hs & Hd & _).
    now apply (consistent_updateHitRate_after _ c).
Qed.

Lemma consistent_clear c : consistent (clear c).
Proof.
  unfold consistent. cbn. repeat split; try lia.
  - constructor.
  - intros k e [].
Qed.

Lemma consistent_exec c call : consistent c -> consistent (exec c call).
Proof.
  intros Hc. destruct call; cbn [exec].
  - now apply consistent_set.
  - now apply consistent_get.
  - now apply consistent_delete.
  - apply consistent_clear.
  - unfold evictStale. apply evictStale_loop_keeps; [apply consistent_delete|exact Hc].
  - destruct Hc as (Hwf & Hn & Hs & Hd & _).
    now apply (consistent_updateHitRate_after _ c).
  - apply consistent_clear.
Qed.

Lemma consistent_reachable cfg calls : consistent (execAll calls (constructor cfg)).
Proof.
  unfold execAll.
  assert (H0 : consistent (constructor cfg)).
  { unfold consistent. cbn. repeat split; try lia.
    - constructor.
    - intros k e []. }
  revert H0. generalize (constructor cfg).
  induction calls as [|call rest IH]; intros c Hc; [exact Hc|].
  apply IH, consistent_exec, Hc.
Qed.

(** X8.  Whatever calls are made on a new manager (the public methods and
    the two timers, in any order), the keys of the map are distinct and
    [totalEntries] is the number of entries of the map. *)
Theorem totalEntries_counts_the_map cfg calls :
  let c := execAll calls (constructor cfg) in
  NoDup (Map.keys (cache c)) /\
  totalEntries (stats c) = Z.of_nat (List.length (cache c)).
Proof.
  destruct (consistent_reachable cfg calls) as (Hwf & Hn & _). now split.
Qed.

(** X9.  Whatever calls are made on a new manager, [memoryUsage] is never
    below the sum of the sizes of the live entries, and so never negative:
    the statistics may overcount, they never undercount. *)
Theorem memoryUsage_never_undercounts cfg calls :
  let c := execAll calls (constructor cfg) in
  0 <= liveSize (cache c) /\ liveSize (cache c) <= memoryUsage (stats c).
Proof.
  destruct (consistent_reachable cfg calls) as (_ & _ & Hs & Hd & _).
  split; [now apply liveSize_nonneg|exact Hd].
Qed.

(** X10.  Whatever calls are made on a new manager, every entry of the
    map still carries the size computed from its value when it was
    stored, and no entry holds [undefined]: a [get] returns [undefined]
    only on a miss. *)
Theorem sizes_are_fixed_at_insertion cfg calls key entry :
  let c := execAll calls (constructor cfg) in
  Map.get key (cache c) = Some entry ->
  calculateSize (value entry) = Normal (size entry) /\
  value entry <> JUndefined /\
  (forall clk, fst (get key clk c) = JUndefined -> isMiss key clk c = true).
Proof.
  intros c Hget.
  destruct (consistent_reachable cfg calls) as (_ & _ & Hs & _).
  pose proof (Hs key entry (MapFacts.get_In _ _ _ Hget)) as Hsz.
  assert (Hdef : value entry <> JUndefined).
  { intros E. rewrite E in Hsz. discriminate. }
  split; [exact Hsz|]. split; [exact Hdef|].
  intros clk. unfold isMiss. fold c. rewrite Hget.
  destruct (isExpired (dateNow1 clk) entry c) eqn:Hexp; [reflexivity|].
  rewrite (get_hit key clk c entry Hget Hexp). cbn [fst]. intros E.
  contradiction.
Qed.

Lemma sizes_are_fixed_at_insertion_witness :
  calculateSize (JString "v") = Normal 6 /\ JString "v" <> JUndefined.
Proof.
  destruct (sizes_are_fixed_at_insertion CacheConfig.empty
              [call_set "k" (JString "v") None (Sample.at_time 5);
               call_get "k" (Sample.at_time 6)]
              "k"
              {| value := JString "v"; created := 5; lastAccessed := 6;
                 ttl := Some 3600; size := 6 |} eq_refl) as (Hsz & Hdef & _).
  split; [exact Hsz|exact Hdef].
Defined.

Lemma updateHitRate_fixpoint c :
  hitRate (stats c) = hitRateOf (hits (stats c)) (misses (stats c)) ->
  updateHitRate c = c.
Proof.
  destruct c as [m [n mu h ms hr avg] cfg ev]. unfold updateHitRate, with_stats.
  cbn. intros ->. reflexivity.
Qed.

(** X11.  Whatever calls are made on a new manager, [hitRate] is the value
    derived from the counters, [hits / (hits + misses) * 100], or 0 before
    the first request; the periodic [updateStats] therefore changes
    nothing. *)
Theorem hitRate_is_derived_from_the_counters cfg calls :
  let c := execAll calls (constructor cfg) in
  hitRate (stats c) = hitRateOf (hits (stats c)) (misses (stats c)) /\
  updateStats c = c.
Proof.
  destruct (consistent_reachable cfg calls) as (_ & _ & _ & _ & Hr).
  split; [exact Hr|]. now apply updateHitRate_fixpoint.
Qed.

(** ** The counters *)

Lemma requests_after_get key clk c :
  hits (stats (snd (get key clk c))) + misses (stats (snd (get key clk c)))
  = hits (stats c) + misses (stats c) + 1.
Proof.
  destruct (isMiss key clk c) eqn:Hmiss.
  - destruct (get_miss_state key clk c Hmiss) as (c0 & -> & Hh & Hm & _).
    cbn. lia.
  - unfold isMiss in Hmiss.
    destruct (Map.get key (cache c)) as [entry|] eqn:Hget; [|discriminate].
    rewrite (get_hit key clk c entry Hget Hmiss). cbn. lia.
Qed.

Lemma requests_after_set key v ttl_arg clk c :
  hits (stats (snd (set key v ttl_arg clk c))) = hits (stats c) /\
  misses (stats (snd (set key v ttl_arg clk c))) = misses (stats c).
Proof.
  destruct (calculateSize v) as [sz|e] eqn:Hsz.
  - rewrite (set_Normal _ _ _ _ _ _ Hsz). cbn.
    now destruct (makeRoom_counters sz c) as (-> & -> & _).
  - now rewrite (set_Throw _ _ _ _ _ _ Hsz).
Qed.

Lemma requests_after_evictStale now c :
  hits (stats (evictStale now c)) = hits (stats c) /\
  misses (stats (evictStale now c)) = misses (stats c) /\
  avgAccessTime (stats (evictStale now c)) = avgAccessTime (stats c).
Proof.
  unfold evictStale.
  apply (evictStale_loop_keeps
           (fun c0 => hits (stats c0) = hits (stats c) /\
                      misses (stats c0) = misses (stats c) /\
                      avgAccessTime (stats c0) = avgAccessTime (stats c)));
    [|now repeat split].
  intros key c0 (H1 & H2 & H3).
  destruct (counters_delete key c0) as (D1 & D2 & _ & D4).
  repeat split; congruence.
Qed.

(** X12.  [hits + misses] is the number of [get] calls made since the
    statistics were last reset by [clear] or [destroy]: every [get] adds
    exactly one, hit or miss, and no other call changes the sum. *)
Theorem requests_are_counted calls c :
  hits (stats (execAll calls c)) + misses (stats (execAll calls c))
  = requestsSinceReset (hits (stats c) + misses (stats c)) calls.
Proof.
  unfold execAll. revert c.
  induction calls as [|call rest IH]; intros c; [reflexivity|].
  cbn [fold_left]. rewrite IH.
  destruct call; cbn [exec requestsSinceReset].
  - now destruct (requests_after_set key v ttl_arg clk c) as (-> & ->).
  - now rewrite requests_after_get.
  - now destruct (counters_delete key c) as (-> & -> & _).
  - reflexivity.
  - now destruct (requests_after_evictStale now c) as (-> & -> & _).
  - reflexivity.
  - reflexivity.
Qed.

(** ** A non-finite average stays non-finite *)

Lemma runningMean_not_finite avg n d :
  Num.isFinite avg = false -> Num.isFinite (runningMean avg n d) = false.
Proof.
  unfold runningMean. generalize (Num.of_Z (n - 1)) (Num.of_Z n). intros x y.
  destruct avg as [s|s| |s m e]; try discriminate; intros _;
    destruct x as [sx|sx| |sx mx ex]; cbn;
    destruct d as [sd|sd| |sd md ed]; cbn;
    repeat match goal with
           | b : bool |- _ => destruct b; cbn
           end;
    destruct y as [sy|sy| |sy my ey]; reflexivity.
Qed.

Lemma not_finite_after_exec c call :
  resets call = false ->
  Num.isFinite (avgAccessTime (stats c)) = false ->
  Num.isFinite (avgAccessTime (stats (exec c call))) = false.
Proof.
  intros Hkeep Hnf. destruct call; cbn [exec]; try discriminate.
  - destruct (calculateSize v) as [sz|e] eqn:Hsz.
    + rewrite (set_Normal _ _ _ _ _ _ Hsz). cbn.
      destruct (makeRoom_counters sz c) as (_ & _ & ->).
      now apply runningMean_not_finite.
    + now rewrite (set_Throw _ _ _ _ _ _ Hsz).
  - destruct (isMiss key clk c) eqn:Hmiss.
    + destruct (get_miss_state key clk c Hmiss) as (c0 & -> & _ & _ & Ha).
      cbn. now rewrite Ha.
    + unfold isMiss in Hmiss.
      destruct (Map.get key (cache c)) as [entry|] eqn:Hget; [|discriminate].
      rewrite (get_hit key clk c entry Hget Hmiss). cbn.
      now apply (runningMean_not_finite _ (hits (stats c) + 1 + misses (stats c))).
  - now destruct (counters_delete key c) as (_ & _ & _ & ->).
  - now destruct (requests_after_evictStale now c) as (_ & _ & ->).
  - exact Hnf.
Qed.

(** X13.  Once [avgAccessTime] is not finite it stays so through every
    [set], [get], [delete], sweep and statistics refresh: only [clear] or
    [destroy] brings it back to a number. *)
Theorem not_finite_average_persists calls c :
  existsb resets calls = false ->
  Num.isFinite (avgAccessTime (stats c)) = false ->
  Num.isFinite (avgAccessTime (stats (execAll calls c))) = false.
Proof.
  unfold execAll. revert c.
  induction calls as [|call rest IH]; intros c Hkeep Hnf; [exact Hnf|].
  cbn [existsb] in Hkeep. apply orb_false_iff in Hkeep.
  destruct Hkeep as (Hcall & Hrest).
  cbn [fold_left]. apply IH; [exact Hrest|].
  now apply not_finite_after_exec.
Qed.

Lemma not_finite_average_persists_witness :
  Num.isFinite
    (avgAccessTime
       (stats (execAll [call_get "k" (Sample.at_time 6);
                        call_set "j" (JNumber 7) None (Sample.at_time 7);
                        call_get "zz" (Sample.at_time 8);
                        call_delete "k";
                        call_evictStale (Scenario.always 9)]
                 Scenario.afterFirstSet))) = false.
Proof.
  apply not_finite_average_persists; reflexivity.
Defined.

(** ** An entry above the ceiling *)

(** X14.  In any state a new manager reaches, storing a value whose size
    alone exceeds [maxMemory] evicts every entry: afterwards the new entry
    is the only one in the map, and [memoryUsage] is above the ceiling. *)
Theorem oversized_entry_evicts_everything cfg calls key v ttl_arg clk sz :
  let c := execAll calls (constructor cfg) in
  calculateSize v = Normal sz ->
  sz > maxMemory (config c) ->
  let c' := snd (set key v ttl_arg clk c) in
  Map.keys (cache c') = [key] /\
  memoryUsage (stats c') > maxMemory (config c').
Proof.
  intros c Hsz Hbig c'.
  pose proof (consistent_reachable cfg calls) as Hc. fold c in Hc.
  pose proof (makeRoom_keeps_whatever_delete_keeps consistent sz c
                consistent_delete Hc) as (Hwf1 & _ & Hs1 & Hd1 & _).
  pose proof (liveSize_nonneg _ Hs1) as Hpos1.
  destruct Hc as (Hwf & _ & Hs & Hd & _).
  pose proof (liveSize_nonneg _ Hs) as Hpos.
  assert (Hempty : cache (makeRoom sz c) = []).
  { revert Hd1 Hpos1. unfold makeRoom.
    destruct (Z.gtb_spec (memoryUsage (stats c) + sz) (maxMemory (config c)));
      [|lia].
    intros Hd1 Hpos1.
    destruct (enforceMemoryLimit_evictsPrefix sz c Hwf) as (n & _ & _ & _ & Hstop).
    destruct Hstop as [Hfits|Hnone]; [lia|exact Hnone]. }
  subst c'. rewrite (set_Normal _ _ _ _ _ _ Hsz). cbn [snd].
  split; [cbn [cache]; now rewrite Hempty|].
  cbn [stats memoryUsage config]. rewrite config_makeRoom. lia.
Qed.

Lemma oversized_entry_evicts_everything_witness :
  Map.keys
    (cache
       (snd (set "big" (JString "0123456789") None (Sample.at_time 9)
               (execAll [call_set "a" (JString "v") None (Sample.at_time 1);
                         call_set "b" (JString "v") None (Sample.at_time 2)]
                  (Sample.withMaxMemory 20)))))
  = ["big"%string].
Proof.
  apply (oversized_entry_evicts_everything
           {| CacheConfig.maxEntries := None; CacheConfig.maxMemory := Some 20;
              CacheConfig.defaultTTL := None; CacheConfig.checkInterval := None;
              CacheConfig.statsInterval := None |}
           [call_set "a" (JString "v") None (Sample.at_time 1);
            call_set "b" (JString "v") None (Sample.at_time 2)]
           "big" (JString "0123456789") None (Sample.at_time 9) 24 eq_refl).
  vm_compute. reflexivity.
Defined.

(** ** The size of a value *)

Lemma string_length_append (s1 s2 : string) :
  String.length (s1 ++ s2)%string = (String.length s1 + String.length s2)%nat.
Proof. induction s1 as [|a r IH]; cbn; [reflexivity|now rewrite IH]. Qed.

Lemma QuoteJSONChar_nonempty a : (1 <= String.length (JSON.QuoteJSONChar a))%nat.
Proof.
  unfold JSON.QuoteJSONChar.
  repeat match goal with
         | |- context [if ?b then _ else _] => destruct b
         end; cbn; lia.
Qed.

Lemma QuoteJSONChars_length s :
  (String.length s <= String.length (JSON.QuoteJSONChars s))%nat.
Proof.
  induction s as [|a r IH]; cbn [JSON.QuoteJSONChars String.length]; [lia|].
  rewrite string_length_append.
  pose proof (QuoteJSONChar_nonempty a). lia.
Qed.

Lemma QuoteJSONString_length s :
  (String.length s + 2 <= String.length (JSON.QuoteJSONString s))%nat.
Proof.
  unfold JSON.QuoteJSONString. rewrite !string_length_append.
  pose proof (QuoteJSONChars_length s). cbn. lia.
Qed.

Lemma NumberToString_nonempty n : (1 <= String.length (JSON.NumberToString n))%nat.
Proof.
  unfold JSON.NumberToString.
  destruct (Z.to_int n) as [d|d]; destruct d; cbn; lia.
Qed.

Lemma stringify_nonempty v s :
  JSON.stringify v = Normal (Some s) -> (1 <= String.length s)%nat.
Proof.
  unfold JSON.stringify.
  destruct v as [| |b|n|s0|n|elements|properties];
    cbn [JSON.SerializeJSONProperty]; try discriminate.
  - intros H. injection H as <-. cbn. lia.
  - intros H. injection H as <-. destruct b; cbn; lia.
  - intros H. injection H as <-. apply NumberToString_nonempty.
  - intros H. injection H as <-. pose proof (QuoteJSONString_length s0). lia.
  - match goal with
    | |- match ?t with _ => _ end = _ -> _ => destruct t
    end; [|discriminate].
    intros H. injection H as <-. cbn. lia.
  - match goal with
    | |- match ?t with _ => _ end = _ -> _ => destruct t
    end; [|discriminate].
    intros H. injection H as <-. cbn. lia.
Qed.

(** X15.  The size [set] charges for a value is even and at least 2 (the
    text of a one-digit number), and for a string of [n] code units at
    least [2 * n + 4]: the two quotes are counted, and an escaped
    character counts for more than one. *)
Theorem size_is_even_and_at_least_two v sz :
  calculateSize v = Normal sz ->
  2 <= sz /\
  Z.even sz = true /\
  (forall s, v = JString s -> 2 * Z.of_nat (String.length s) + 4 <= sz).
Proof.
  unfold calculateSize.
  destruct (JSON.stringify v) as [[str|]|e] eqn:E; try discriminate.
  intros H. injection H as <-.
  pose proof (stringify_nonempty v str E) as Hlen.
  split; [lia|]. split.
  - rewrite Z.even_mul. apply orb_true_r.
  - intros s ->. unfold JSON.stringify in E.
    cbn [JSON.SerializeJSONProperty] in E. injection E as <-.
    pose proof (QuoteJSONString_length s). lia.
Qed.

Lemma size_is_even_and_at_least_two_witness :
  2 <= 12 /\ Z.even 12 = true /\ 2 * Z.of_nat (String.length "a\b") + 4 <= 12.
Proof.
  destruct (size_is_even_and_at_least_two (JString "a\b") 12 eq_refl)
    as (H2 & Heven & Hstr).
  split; [exact H2|]. split; [exact Heven|]. now apply Hstr.
Defined.

(** ** Which values [set] refuses *)

Lemma stringify_outcome v :
  (containsBigInt v = true -> JSON.SerializeJSONProperty v = Throw TypeError) /\
  (containsBigInt v = false ->
   exists o, JSON.SerializeJSONProperty v = Normal o /\
             (o = None <-> v = JUndefined)).
Proof.
  induction v as [| | | | | |elements IH|properties IH] using JsValue_nested_ind;
    cbn [containsBigInt JSON.SerializeJSONProperty];
    try (split; [discriminate|intros _; eexists; split; [reflexivity|];
                 split; [discriminate|discriminate]]).
  - split; [discriminate|]. intros _. eexists. split; [reflexivity|]. now split.
  - split; [reflexivity|discriminate].
  - match goal with
    | |- context [match ?t with _ => _ end] =>
        assert (Hitems :
                  (existsb containsBigInt elements = true -> t = Throw TypeError) /\
                  (existsb containsBigInt elements = false -> exists acc, t = Normal acc))
    end.
    { induction IH as [|x r Hx _ IHr]; cbn [existsb].
      - split; [discriminate|]. intros _. eexists. reflexivity.
      - destruct Hx as (HxT & HxN). destruct IHr as (IT & IN).
        destruct (containsBigInt x); cbn [orb].
        + split; [|discriminate]. intros _. now rewrite (HxT eq_refl).
        + destruct (HxN eq_refl) as (o & Ho & _). rewrite Ho. split; intros Hr.
          * now rewrite (IT Hr).
          * destruct (IN Hr) as (acc & ->). eexists. reflexivity. }
    destruct Hitems as (HT & HN). split; intros Hb.
    + now rewrite (HT Hb).
    + destruct (HN Hb) as (acc & ->). eexists. split; [reflexivity|].
      split; discriminate.
  - match goal with
    | |- context [match ?t with _ => _ end] =>
        assert (Hitems :
                  (existsb (fun kv => containsBigInt (snd kv)) properties = true ->
                   t = Throw TypeError) /\
                  (existsb (fun kv => containsBigInt (snd kv)) properties = false ->
                   exists acc, t = Normal acc))
    end.
    { induction IH as [|[k x] r Hx _ IHr]; cbn [existsb snd].
      - split; [discriminate|]. intros _. eexists. reflexivity.
      - cbn [snd] in Hx. destruct Hx as (HxT & HxN). destruct IHr as (IT & IN).
        destruct (containsBigInt x); cbn [orb].
        + split; [|discriminate]. intros _. now rewrite (HxT eq_refl).
        + destruct (HxN eq_refl) as (o & Ho & _). rewrite Ho. split; intros Hr.
          * now rewrite (IT Hr).
          * destruct (IN Hr) as (acc & ->). eexists. reflexivity. }
    destruct Hitems as (HT & HN). split; intros Hb.
    + now rewrite (HT Hb).
    + destruct (HN Hb) as (acc & ->). eexists. split; [reflexivity|].
      split; discriminate.
Qed.

Lemma serializable_iff v :
  serializable v = false <-> v = JUndefined \/ containsBigInt v = true.
Proof.
  unfold serializable, JSON.stringify.
  destruct (stringify_outcome v) as (HT & HN).
  destruct (containsBigInt v).
  - rewrite (HT eq_refl). split; [now right|reflexivity].
  - destruct (HN eq_refl) as (o & -> & Ho). destruct o as [s|].
    + split; [discriminate|]. intros [E|E]; [|discriminate].
      apply Ho in E. discriminate.
    + split; [|reflexivity]. intros _. left. now apply Ho.
Qed.

(** X16.  [set] raises a TypeError, and leaves the state as it was, when
    the value is [undefined] or holds a BigInt at any depth.  Among the
    values of this model (null, booleans, integer numbers, strings,
    arrays and plain objects of these) every other value is stored, also
    an array that holds [undefined] or an object with an [undefined]
    property.  Functions, symbols, cyclic structures and objects with a
    [toJSON] method or getters are not values of the model: the first
    three make [set] raise as well. *)
Theorem set_refuses_undefined_and_BigInt key v ttl_arg clk c :
  (v = JUndefined \/ containsBigInt v = true ->
   set key v ttl_arg clk c = (Throw TypeError, c)) /\
  (v <> JUndefined -> containsBigInt v = false ->
   fst (set key v ttl_arg clk c) = Normal tt /\
   Map.get key (cache (snd (set key v ttl_arg clk c))) <> None).
Proof.
  split.
  - intros Hbad. apply serializable_iff in Hbad.
    destruct (calculateSize_cases v) as [(Hs & _)|(_ & Hsz)]; [congruence|].
    now apply set_Throw.
  - intros Hdef Hnone.
    destruct (calculateSize_cases v) as [(_ & sz & Hsz & _)|(Hs & _)].
    + rewrite (set_Normal _ _ _ _ _ _ Hsz). cbn [fst snd cache].
      split; [reflexivity|]. now rewrite MapFacts.get_set_same.
    + apply serializable_iff in Hs. destruct Hs as [E|E]; congruence.
Qed.

Lemma set_refuses_undefined_and_BigInt_witness :
  set "k" (JObject [("a", JArray [JNull; JBigInt 1])]%string) None
    (Sample.at_time 5) Sample.abc = (Throw TypeError, Sample.abc) /\
  fst (set "k" (JObject [("a", JArray [JNull; JUndefined])]%string) None
         (Sample.at_time 5) Sample.abc) = Normal tt.
Proof.
  split.
  - apply (set_refuses_undefined_and_BigInt "k"). right. reflexivity.
  - apply (set_refuses_undefined_and_BigInt "k"); [discriminate|reflexivity].
Defined.

(** ** The tool handler *)

Lemma handle_retrieve_data key clk c :
  Tool.handle (Tool.retrieve_data key) clk c =
  match get key clk c with
  | (JUndefined, c') =>
      ({| Tool.text := Tool.Literal ("No data found for key: " ++ key);
          Tool.isError := true; Tool.errorCode := None |}, c')
  | (v, c') => (Tool.reply (Tool.PrettyJSON v), c')
  end.
Proof. reflexivity. Qed.

(** X17.  In any state a new manager reaches, [retrieve_data] replies
    with the error "No data found" exactly when the [get] is a miss (the
    key is absent or its entry has expired); on a hit it replies with the
    stored value.  The state is the one [get] leaves. *)
Theorem retrieve_data_fails_exactly_on_a_miss cfg calls key clk :
  let c := execAll calls (constructor cfg) in
  let r := fst (Tool.handle (Tool.retrieve_data key) clk c) in
  snd (Tool.handle (Tool.retrieve_data key) clk c) = snd (get key clk c) /\
  Tool.isError r = isMiss key clk c /\
  (isMiss key clk c = true ->
   Tool.text r = Tool.Literal ("No data found for key: " ++ key)) /\
  (isMiss key clk c = false ->
   exists entry, Map.get key (cache c) = Some entry /\
                 Tool.text r = Tool.PrettyJSON (value entry)).
Proof.
  intros c r. subst r. rewrite handle_retrieve_data.
  destruct (isMiss key clk c) eqn:Hmiss.
  - destruct (get_miss_state key clk c Hmiss) as (c0 & -> & _).
    cbn. repeat split. discriminate.
  - unfold isMiss in Hmiss.
    destruct (Map.get key (cache c)) as [entry|] eqn:Hget; [|discriminate].
    rewrite (get_hit key clk c entry Hget Hmiss).
    destruct (consistent_reachable cfg calls) as (_ & _ & Hs & _).
    pose proof (Hs key entry (MapFacts.get_In _ _ _ Hget)) as Hsz.
    destruct (value entry) eqn:Hv; try discriminate Hsz;
      cbn; (split; [reflexivity|]); (split; [reflexivity|]);
      (split; [discriminate|]); intros _; exists entry;
      (split; [reflexivity|]); now rewrite Hv.
Qed.

(** X18.  [store_data] with a value that has no JSON text replies with
    the caught TypeError, flagged [isError] with the code InvalidArgument,
    and leaves the state untouched; with any other value it replies
    "Successfully stored data with key: ..." and the state is the one
    [set] leaves. *)
Theorem store_data_reply key v ttl_arg clk c :
  (serializable v = false ->
   Tool.handle (Tool.store_data key v ttl_arg) clk c
   = ({| Tool.text := Tool.MessageOf TypeError; Tool.isError := true;
         Tool.errorCode := Some "InvalidArgument"%string |}, c)) /\
  (serializable v = true ->
   Tool.handle (Tool.store_data key v ttl_arg) clk c
   = ({| Tool.text := Tool.Literal ("Successfully stored data with key: " ++ key);
         Tool.isError := false; Tool.errorCode := None |},
      snd (set key v ttl_arg clk c))).
Proof.
  unfold Tool.handle, Tool.logged.
  destruct (calculateSize_cases v) as [(Hs & sz & Hsz & _)|(Hs & Hsz)];
    rewrite Hs; split; try discriminate; intros _.
  - unfold serializable in Hs.
    destruct (JSON.stringify v) as [[str|]|e]; try discriminate.
    now rewrite (set_Normal _ _ _ _ _ _ Hsz).
  - destruct (JSON.stringify v) as [o|e] eqn:E.
    + now rewrite (set_Throw _ _ _ _ _ _ Hsz).
    + now rewrite (SerializeJSONProperty_throws v e E).
Qed.

Lemma store_data_reply_witness :
  Tool.handle (Tool.store_data "k" (JBigInt 7) None) (Sample.at_time 5) Sample.abc
  = (Tool.caught TypeError, Sample.abc) /\
  Tool.isError
    (fst (Tool.handle (Tool.store_data "k" (JNumber 7) None) (Sample.at_time 5)
            Sample.abc)) = false.
Proof.
  destruct (store_data_reply "k" (JBigInt 7) None (Sample.at_time 5) Sample.abc)
    as (Hbad & _).
  destruct (store_data_reply "k" (JNumber 7) None (Sample.at_time 5) Sample.abc)
    as (_ & Hgood).
  split; [exact (Hbad eq_refl)|]. now rewrite (Hgood eq_refl).
Defined.

(** X19.  [clear_cache] removes one entry only when it is given a
    non-empty key: then the state is the one [delete] leaves and the reply
    tells whether the key was there.  Without a key, and also with the
    empty string as key, it clears the whole cache: an entry stored under
    the empty key cannot be removed on its own. *)
Theorem clear_cache_needs_a_non_empty_key clk c :
  snd (Tool.handle (Tool.clear_cache None) clk c) = clear c /\
  snd (Tool.handle (Tool.clear_cache (Some ""%string)) clk c) = clear c /\
  (forall k, k <> ""%string ->
     snd (Tool.handle (Tool.clear_cache (Some k)) clk c) = snd (delete k c) /\
     Tool.text (fst (Tool.handle (Tool.clear_cache (Some k)) clk c))
     = Tool.Literal
         (match Map.get k (cache c) with
          | Some _ => "Successfully cleared cache entry: " ++ k
          | None => "No cache entry found for key: " ++ k
          end)%string).
Proof.
  split; [reflexivity|]. split; [reflexivity|].
  intros k Hne. destruct k as [|a r]; [contradiction|].
  unfold Tool.handle. cbn [Tool.logged Tool.truthy nullish].
  unfold delete. now destruct (Map.get (String a r) (cache c)).
Qed.

Lemma clear_cache_needs_a_non_empty_key_witness :
  Map.keys (cache Scenario.withEmptyKey) = [""; "j"]%string /\
  cache (snd (Tool.handle (Tool.clear_cache (Some ""%string)) (Sample.at_time 9)
                Scenario.withEmptyKey)) = [] /\
  Map.keys (cache (snd (Tool.handle (Tool.clear_cache (Some "j"%string))
                          (Sample.at_time 9) Scenario.withEmptyKey)))
  = [""%string].
Proof.
  destruct (clear_cache_needs_a_non_empty_key (Sample.at_time 9)
              Scenario.withEmptyKey) as (_ & Hempty & Hkey).
  destruct (Hkey "j"%string) as (Hj & _); [discriminate|].
  split; [reflexivity|]. split.
  - now rewrite Hempty.
  - rewrite Hj. reflexivity.
Defined.

(** ** The most recently used entry *)

Lemma sorted_after_middle {A : Type} (R : A -> A -> Prop) l1 x l2 :
  StronglySorted R (l1 ++ x :: l2) -> Forall (R x) l2.
Proof.
  induction l1 as [|y r IH]; cbn; intros Hs; inversion Hs; subst; auto.
Qed.

Lemma In_firstn_In {A : Type} (x : A) n l : In x (firstn n l) -> In x l.
Proof.
  intros Hin. rewrite <- (firstn_skipn n l). apply in_or_app. now left.
Qed.

Lemma get_deleteAll_other k keys c :
  ~ In k keys -> Map.get k (cache (deleteAll keys c)) = Map.get k (cache c).
Proof.
  revert c. induction keys as [|k0 r IH]; intros c Hnotin; [reflexivity|].
  rewrite deleteAll_cons, IH; [|intros Hin; apply Hnotin; now right].
  rewrite cache_delete_eq. apply MapFacts.get_delete_other.
  intros ->. apply Hnotin. now left.
Qed.

Lemma most_recent_is_last (m : Map.t CacheEntry) k e :
  Map.wf m -> Map.get k m = Some e ->
  (forall k' e', Map.get k' m = Some e' -> k' <> k ->
     lastAccessed e' < lastAccessed e) ->
  exists older, Array_sort byLastAccessed (Map.entries m) = older ++ [(k, e)].
Proof.
  intros Hwf Hget Hrecent.
  pose proof (Array_sort_perm byLastAccessed (Map.entries m)) as Hperm.
  pose proof (Array_sort_sorted (Map.entries m)) as Hsorted.
  pose proof (order_keys_wf m _ Hwf Hperm) as Hnd.
  assert (Hin : In (k, e) (Array_sort byLastAccessed (Map.entries m))).
  { eapply Permutation_in; [apply Permutation_sym, Hperm|].
    now apply MapFacts.get_In. }
  apply in_split in Hin. destruct Hin as (older & newer & Hsplit).
  rewrite Hsplit in Hsorted, Hnd, Hperm. exists older. rewrite Hsplit.
  destruct newer as [|[k' e'] rest]; [reflexivity|exfalso].
  pose proof (sorted_after_middle _ _ _ _ Hsorted) as Hle.
  inversion Hle as [|? ? Hle' _]; subst. unfold olderOrEqual in Hle'. cbn in Hle'.
  assert (Hin' : In (k', e') m).
  { eapply Permutation_in; [exact Hperm|].
    apply in_or_app. right. right. now left. }
  assert (Hne : k' <> k).
  { intros ->. rewrite map_app in Hnd. cbn [map fst] in Hnd.
    apply NoDup_remove_2 in Hnd. apply Hnd, in_or_app. right. now left. }
  pose proof (Hrecent k' e' (MapFacts.In_get _ _ _ Hwf Hin') Hne). lia.
Qed.

(** X20.  The entry that was accessed strictly last is the last one
    [enforceMemoryLimit] removes: if it is gone after the eviction, every
    entry is gone. *)
Theorem most_recent_entry_is_evicted_last requiredSize c k e :
  Map.wf (cache c) ->
  Map.get k (cache c) = Some e ->
  (forall k' e', Map.get k' (cache c) = Some e' -> k' <> k ->
     lastAccessed e' < lastAccessed e) ->
  Map.get k (cache (enforceMemoryLimit requiredSize c)) = None ->
  cache (enforceMemoryLimit requiredSize c) = [].
Proof.
  intros Hwf Hget Hrecent Hgone.
  destruct (most_recent_is_last (cache c) k e Hwf Hget Hrecent) as (older & Horder).
  pose proof (Array_sort_perm byLastAccessed (Map.entries (cache c))) as Hperm.
  pose proof (order_keys_wf (cache c) _ Hwf Hperm) as Hnd.
  unfold enforceMemoryLimit in *.
  destruct (loop_evicts_prefix requiredSize
              (Array_sort byLastAccessed (Map.entries (cache c))) c Hnd)
    as (n & Hn & Heq & _ & _).
  { intros k0 Hin Hnone. apply MapFacts.get_None_keys in Hnone. apply Hnone.
    eapply Permutation_in; [apply Permutation_map, Hperm|exact Hin]. }
  rewrite Heq in Hgone |- *. rewrite Horder in Hn, Hnd, Hgone, Hperm |- *.
  rewrite map_app in Hnd, Hgone |- *. cbn [map fst] in Hnd, Hgone |- *.
  rewrite length_app in Hn. cbn [List.length] in Hn.
  destruct (Nat.le_gt_cases n (List.length older)) as [Hle|Hgt].
  - exfalso. rewrite firstn_app in Hgone.
    rewrite length_map in Hgone.
    replace (n - List.length older)%nat with 0%nat in Hgone by lia.
    cbn [firstn] in Hgone. rewrite app_nil_r in Hgone.
    rewrite get_deleteAll_other in Hgone; [congruence|].
    intros Hin. apply In_firstn_In in Hin.
    apply NoDup_remove_2 in Hnd. apply Hnd. rewrite app_nil_r. exact Hin.
  - rewrite firstn_all2 by (rewrite length_app, length_map; cbn; lia).
    apply deleteAll_every_key. intros k0 Hin.
    replace (map fst older ++ [k]) with (map fst (older ++ [(k, e)]))
      by (rewrite map_app; reflexivity).
    eapply Permutation_in; [apply Permutation_sym, Permutation_map, Hperm|exact Hin].
Qed.

Lemma most_recent_entry_is_evicted_last_witness :
  cache (enforceMemoryLimit 21 Sample.abc) = [].
Proof.
  apply (most_recent_entry_is_evicted_last 21 Sample.abc "C" (Sample.entryAt 0 3)
           abc_wf eq_refl).
  - intros k' e' Hget Hne.
    apply MapFacts.get_In in Hget.
    destruct Hget as [E|[E|[E|[]]]]; injection E as <- <-;
      [congruence|reflexivity|reflexivity].
  - vm_compute. reflexivity.
Defined.

(** ** Exact accounting, on samples *)

Lemma accounted_after_run_witness :
  accounted
    (run [Put "a" (JString "v") None (Sample.at_time 1);
          Put "b" (JString "vvv") None (Sample.at_time 2);
          Remove "a";
          Put "a" (JNumber 7) None (Sample.at_time 3)] Sample.fresh).
Proof.
  apply accounted_after_run.
  - apply wf_constructor.
  - split; reflexivity.
  - cbn. repeat split.
Defined.

Lemma set_within_ceiling_when_accounted_witness :
  memoryUsage
    (stats (snd (set "D" (JString "v") None (Sample.at_time 4) Sample.abc))) <= 20
  \/ 6 > 20.
Proof.
  apply (set_within_ceiling_when_accounted "D" (JString "v") None
           (Sample.at_time 4) Sample.abc 6 abc_wf).
  - split; reflexivity.
  - reflexivity.
Defined.

Lemma overwrite_drifts_witness :
  let c1 := snd (set "a" (JString "v") None (Sample.at_time 1000)
                   (Sample.withMaxMemory 12)) in
  memoryUsage (stats (snd (set "a" (JString "v") None (Sample.at_time 2000) c1)))
  = liveSize (cache (snd (set "a" (JString "v") None (Sample.at_time 2000) c1))) + 6.
Proof.
  apply (overwrite_drifts "a" (JString "v") None (Sample.at_time 2000)
           (snd (set "a" (JString "v") None (Sample.at_time 1000)
                   (Sample.withMaxMemory 12)))
           6
           {| value := JString "v"; created := 1000; lastAccessed := 1000;
              ttl := Some 3600; size := 6 |}).
  - split; reflexivity.
  - reflexivity.
  - vm_compute. discriminate.
  - reflexivity.
Defined.
